(** * chops net_ip: message framing helpers, the io handler mock, the
  [basic_io_interface] handle and the [send_to_all] collection

  A shallow embedding of
  - [test/include/net_ip/shared_utility_test.hpp] (message builders, the
    header decoder, [msg_hdlr], [io_handler_mock]),
  - [include/net_ip/component/send_to_all.hpp],
  together with the handle class both of them call into.

  Conventions.  A [std::size_t] is a [Z] in [0, 2^64); a [std::uint16_t] is
  a [Z] in [0, 2^16); conversions write the wrap-around out.  A shared
  buffer is the list of its bytes.  An [assert] that fails aborts the
  program: functions that assert return [option], [None] being the abort.
  Objects owned through [std::shared_ptr] live in a store indexed by the
  address of their control block; a [std::weak_ptr] is an optional
  address that must be looked up in the store each time it is locked. *)

From Stdlib Require Import ZArith Lia.
From Stdlib Require Import Strings.Byte Strings.Ascii Strings.String.
From stdpp Require Import base tactics option list gmap.

Local Open Scope Z_scope.

(** ** Machine integers *)

Module Int.

Definition size_t_width : Z := 64.
Definition size_t_modulus : Z := 2 ^ size_t_width.

(** conversion to [std::size_t] *)
Definition to_size_t (z : Z) : Z := z mod size_t_modulus.

(** [std::numeric_limits<std::uint16_t>::max()] *)
Definition uint16_max : Z := 65535.

(** [static_cast<std::uint16_t>(z)] *)
Definition to_uint16 (z : Z) : Z := z mod 2 ^ 16.

Definition byte_of_Z (z : Z) : byte :=
  default x00 (Byte.of_N (Z.to_N (z mod 256))).

Definition Z_of_byte (b : byte) : Z := Z.of_N (Byte.to_N b).

(** Byte order of the machine the code runs on. *)
Inductive endianness : Set := little | big.

(** [boost::endian::endian_reverse] on a 16 bit value: the two bytes
    change places. *)
Definition endian_reverse (x : Z) : Z :=
  Z.lor (Z.shiftl (Z.land x 255) 8) (Z.land (Z.shiftr x 8) 255).

(** [boost::endian::native_to_big] *)
Definition native_to_big (e : endianness) (x : Z) : Z :=
  match e with big => x | little => endian_reverse x end.

(** [boost::endian::big_to_native] *)
Definition big_to_native (e : endianness) (x : Z) : Z :=
  match e with big => x | little => endian_reverse x end.

(** The two bytes a [std::uint16_t] object occupies, lowest address first. *)
Definition object_bytes (e : endianness) (x : Z) : list byte :=
  let lo := byte_of_Z (Z.land x 255) in
  let hi := byte_of_Z (Z.land (Z.shiftr x 8) 255) in
  match e with little => [lo; hi] | big => [hi; lo] end.

(** The [std::uint16_t] whose object holds [b0] at the lowest address and
    [b1] after it. *)
Definition object_value (e : endianness) (b0 b1 : byte) : Z :=
  match e with
  | little => Z.lor (Z_of_byte b0) (Z.shiftl (Z_of_byte b1) 8)
  | big => Z.lor (Z_of_byte b1) (Z.shiftl (Z_of_byte b0) 8)
  end.

End Int.

(** ** Shared buffers and the message builders *)

Module Msg.
Import Int.

(** [chops::mutable_shared_buffer] and [chops::const_shared_buffer]: the
    bytes held. *)
Abbreviation shared_buffer := (list byte).

(** [buf.size()] *)
Definition size (buf : shared_buffer) : Z := Z.of_nat (length buf).

(** [make_body_buf(pre, body_char, num_body_chars)] *)
Definition make_body_buf (pre : string) (body_char : ascii)
    (num_body_chars : nat) : shared_buffer :=
  let buf := list_byte_of_string pre in
  let body := replicate num_body_chars (byte_of_ascii body_char) in
  buf ++ body.

(** [make_variable_len_msg(body)]: asserts on the size, then prepends the
    16 bit big endian header. *)
Definition make_variable_len_msg (e : endianness) (body : shared_buffer)
    : option shared_buffer :=
  if size body <? uint16_max then
    let hdr := native_to_big e (to_uint16 (size body)) in
    let msg := object_bytes e hdr in
    Some (msg ++ body)
  else None.

(** [make_cr_lf_text_msg(body)] *)
Definition make_cr_lf_text_msg (body : shared_buffer) : shared_buffer :=
  let ba := [byte_of_Z 0x0D; byte_of_Z 0x0A] in
  body ++ ba.

(** [make_lf_text_msg(body)] *)
Definition make_lf_text_msg (body : shared_buffer) : shared_buffer :=
  let ba := [byte_of_Z 0x0A] in
  body ++ ba.

(** [decode_variable_len_msg_hdr(buf_ptr, sz)]: [buf] is the [sz] bytes
    at [buf_ptr]; asserts [sz == 2]. *)
Definition decode_variable_len_msg_hdr (e : endianness)
    (buf : shared_buffer) : option Z :=
  match buf with
  | [b0; b1] => Some (to_size_t (big_to_native e (object_value e b0 b1)))
  | _ => None
  end.

(** [make_empty_body_msg(func)] *)
Definition make_empty_body_msg {A} (func : shared_buffer → A) : A :=
  func [].

Definition make_empty_variable_len_msg (e : endianness) :=
  make_empty_body_msg (make_variable_len_msg e).
Definition make_empty_cr_lf_text_msg := make_empty_body_msg make_cr_lf_text_msg.
Definition make_empty_lf_text_msg := make_empty_body_msg make_lf_text_msg.

End Msg.

(** The builder and the frame function as
    [test/net_ip/detail/shared_utility_test.cpp] defines them: no
    assertion on the size of the body, and the frame function reads the
    two bytes at the start of the buffer it is given. *)

Module shared_utility_test_cpp.
Import Int.

(** [make_variable_len_msg(body)] *)
Definition make_variable_len_msg (e : endianness) (body : Msg.shared_buffer)
    : Msg.shared_buffer :=
  let hdr := native_to_big e (to_uint16 (Msg.size body)) in
  let msg := object_bytes e hdr in
  msg ++ body.

(** [variable_len_msg_frame(buf)]; [None] when the buffer has fewer than
    the two bytes that are read. *)
Definition variable_len_msg_frame (e : endianness) (buf : Msg.shared_buffer)
    : option Z :=
  match buf with
  | b0 :: b1 :: _ => Some (to_size_t (big_to_native e (object_value e b0 b1)))
  | _ => None
  end.

End shared_utility_test_cpp.

(** ** Types shared by the handlers, the handle and the collection *)

(** [chops::net::output_queue_stats] (net_ip/queue_stats.hpp is not among
    the sources): the two [std::size_t] members that
    [io_handler_mock::get_output_queue_stats] initialises, in this order,
    and that [send_to_all::get_total_output_queue_stats] adds up. *)
Record output_queue_stats : Set := mk_output_queue_stats {
  output_queue_size : Z;
  bytes_in_output_queue : Z
}.

(** [std::experimental::net::ip::udp::endpoint]: an address and a port;
    the default constructed one is all zero. *)
Record endpoint : Set := mk_endpoint { address : Z; port : Z }.

Definition default_endpoint : endpoint := mk_endpoint 0 0.

(** Modelled from the spec: the error code enumeration [net_ip_errc]
    (net_ip/net_ip_error.hpp is not among the sources), as listed in the
    section on external interfaces. *)
Inductive net_ip_errc : Set :=
| invalid_handle
| already_started
| not_started
| message_handler_terminated
| framing_buffer_overflow
| connection_closed
| io_cancelled.

(** How a call ends: it returns a value, it leaves by an exception, or the
    program is terminated ([std::terminate]). *)
Inductive outcome (A : Type) : Type :=
| Returned (a : A)
| Threw (e : net_ip_errc)
| Terminated.
Arguments Returned {A} a.
Arguments Threw {A} e.
Arguments Terminated {A}.

Definition outcome_bind {A B} (m : outcome A) (k : A → outcome B) : outcome B :=
  match m with
  | Returned a => k a
  | Threw e => Threw e
  | Terminated => Terminated
  end.

Notation "x ←! m ; k" := (outcome_bind m (λ x, k))
  (at level 20, m at level 100, k at level 200, right associativity,
   only parsing).

(** A function declared [noexcept]: an exception that would leave it
    terminates the program instead. *)
Definition noexcept {A} (m : outcome A) : outcome A :=
  match m with
  | Threw _ => Terminated
  | _ => m
  end.

(** The six overloads of [start_io], with the arguments that are data.  The
    message handler and message frame function objects are not called by
    any code modelled here and are left out. *)
Inductive start_io_args (E : Type) : Type :=
| sio_msg_frame (header_size : Z)
    (* start_io(std::size_t, MH&&, MF&&) *)
| sio_delim (delim : string)
    (* start_io(std::string_view, MH&&) *)
| sio_read (max_size : Z)
    (* start_io(std::size_t, MH&&) *)
| sio_read_endp (endp : E) (max_size : Z)
    (* start_io(const endpoint_type&, std::size_t, MH&&) *)
| sio_send
    (* start_io() *)
| sio_send_endp (endp : E).
    (* start_io(const endpoint_type&) *)
Arguments sio_msg_frame {E} header_size.
Arguments sio_delim {E} delim.
Arguments sio_read {E} max_size.
Arguments sio_read_endp {E} endp max_size.
Arguments sio_send {E}.
Arguments sio_send_endp {E} endp.

(** What the templates [basic_io_interface<IOH>], [msg_hdlr<IOT>] and
    [send_to_all<IOH>] require of their io handler parameter. *)
Class IOHandler (IOH : Type) : Type := {
  socket_type : Type;
  endpoint_type : Type;
  ioh_is_io_started : IOH → bool;
  ioh_get_socket : IOH → socket_type;
  ioh_get_output_queue_stats : IOH → output_queue_stats;
  ioh_send : Msg.shared_buffer → IOH → IOH;
  ioh_send_to : Msg.shared_buffer → endpoint_type → IOH → IOH;
  ioh_start_io : start_io_args endpoint_type → IOH → bool * IOH;
  ioh_stop_io : IOH → bool * IOH
}.

(** ** [io_handler_mock] *)

Module io_handler_mock.

Record t : Set := mk {
  sock : Z;
  started : bool;
  send_called : bool;
  mf_sio_called : bool;
  delim_sio_called : bool;
  rd_sio_called : bool;
  rd_endp_sio_called : bool;
  send_sio_called : bool;
  send_endp_sio_called : bool
}.

(** The member initialisers. *)
Definition init : t := mk 3 false false false false false false false false.

Definition qs_base : Z := 42.

(** Assignments to the members. *)
Definition set_started (b : bool) (h : t) : t :=
  mk (sock h) b (send_called h) (mf_sio_called h) (delim_sio_called h)
     (rd_sio_called h) (rd_endp_sio_called h) (send_sio_called h)
     (send_endp_sio_called h).
Definition set_send_called (b : bool) (h : t) : t :=
  mk (sock h) (started h) b (mf_sio_called h) (delim_sio_called h)
     (rd_sio_called h) (rd_endp_sio_called h) (send_sio_called h)
     (send_endp_sio_called h).
Definition set_mf_sio_called (b : bool) (h : t) : t :=
  mk (sock h) (started h) (send_called h) b (delim_sio_called h)
     (rd_sio_called h) (rd_endp_sio_called h) (send_sio_called h)
     (send_endp_sio_called h).
Definition set_delim_sio_called (b : bool) (h : t) : t :=
  mk (sock h) (started h) (send_called h) (mf_sio_called h) b
     (rd_sio_called h) (rd_endp_sio_called h) (send_sio_called h)
     (send_endp_sio_called h).
Definition set_rd_sio_called (b : bool) (h : t) : t :=
  mk (sock h) (started h) (send_called h) (mf_sio_called h)
     (delim_sio_called h) b (rd_endp_sio_called h) (send_sio_called h)
     (send_endp_sio_called h).
Definition set_rd_endp_sio_called (b : bool) (h : t) : t :=
  mk (sock h) (started h) (send_called h) (mf_sio_called h)
     (delim_sio_called h) (rd_sio_called h) b (send_sio_called h)
     (send_endp_sio_called h).
Definition set_send_sio_called (b : bool) (h : t) : t :=
  mk (sock h) (started h) (send_called h) (mf_sio_called h)
     (delim_sio_called h) (rd_sio_called h) (rd_endp_sio_called h) b
     (send_endp_sio_called h).
Definition set_send_endp_sio_called (b : bool) (h : t) : t :=
  mk (sock h) (started h) (send_called h) (mf_sio_called h)
     (delim_sio_called h) (rd_sio_called h) (rd_endp_sio_called h)
     (send_sio_called h) b.

Definition is_io_started (h : t) : bool := started h.

Definition get_socket (h : t) : Z := sock h.

Definition get_output_queue_stats (h : t) : output_queue_stats :=
  mk_output_queue_stats qs_base (qs_base + 1).

(** Both overloads of [send]. *)
Definition send (buf : Msg.shared_buffer) (h : t) : t :=
  set_send_called true h.
Definition send_to (buf : Msg.shared_buffer) (endp : endpoint) (h : t) : t :=
  set_send_called true h.

(** The body shared by the six overloads of [start_io],
      [return started ? false : started = true, X_sio_called = true, true;]
    where [X_sio_called] is the flag of the overload.  The comma operator
    binds weaker than the conditional operator, whose third operand is the
    assignment [started = true] alone, so the statement is
      [return ((started ? false : (started = true)),
               (X_sio_called = true),
               true);]
    three expressions evaluated left to right, the value of the last one
    returned. *)
Definition start_io_body (set_sio_called : bool → t → t) (h : t) : bool * t :=
  let h := if started h then h else set_started true h in
  let h := set_sio_called true h in
  (true, h).

Definition start_io (args : start_io_args endpoint) (h : t) : bool * t :=
  match args with
  | sio_msg_frame _ => start_io_body set_mf_sio_called h
  | sio_delim _ => start_io_body set_delim_sio_called h
  | sio_read _ => start_io_body set_rd_sio_called h
  | sio_read_endp _ _ => start_io_body set_rd_endp_sio_called h
  | sio_send => start_io_body set_send_sio_called h
  | sio_send_endp _ => start_io_body set_send_endp_sio_called h
  end.

(** [return started ? started = false, true : false;]  The second operand
    of the conditional operator is everything between [?] and [:]. *)
Definition stop_io (h : t) : bool * t :=
  if started h then (true, set_started false h) else (false, h).

(** A call of [start_io] or of [stop_io]. *)
Inductive call : Type :=
| call_start_io (args : start_io_args endpoint)
| call_stop_io.

Definition step (c : call) (h : t) : bool * t :=
  match c with
  | call_start_io args => start_io args h
  | call_stop_io => stop_io h
  end.

(** A sequence of calls on one handler: what each call returned, and the
    handler at the end. *)
Fixpoint run (cs : list call) (h : t) : list bool * t :=
  match cs with
  | [] => ([], h)
  | c :: cs =>
      let '(r, h') := step c h in
      let '(rs, h'') := run cs h' in
      (r :: rs, h'')
  end.

(** How often the started flag goes from false to true in a sequence of
    calls. *)
Fixpoint started_flips (cs : list call) (h : t) : nat :=
  match cs with
  | [] => 0
  | c :: cs =>
      let h' := (step c h).2 in
      ((if negb (started h) && started h' then 1 else 0)
         + started_flips cs h')%nat
  end.

Definition is_stop_io (c : call) : bool :=
  match c with call_stop_io => true | call_start_io _ => false end.

(** How many of the calls are calls of [stop_io]. *)
Definition count_stop_io (cs : list call) : nat :=
  length (List.filter is_stop_io cs).

End io_handler_mock.

#[export] Instance io_handler_mock_IOHandler : IOHandler io_handler_mock.t := {
  socket_type := Z;
  endpoint_type := endpoint;
  ioh_is_io_started := io_handler_mock.is_io_started;
  ioh_get_socket := io_handler_mock.get_socket;
  ioh_get_output_queue_stats := io_handler_mock.get_output_queue_stats;
  ioh_send := io_handler_mock.send;
  ioh_send_to := io_handler_mock.send_to;
  ioh_start_io := io_handler_mock.start_io;
  ioh_stop_io := io_handler_mock.stop_io
}.

(** ** The store of shared io handlers *)

(** Handlers are created by [std::make_shared] and found again through
    the address of their control block. *)
Abbreviation store IOH := (gmap N IOH).

(** ** [basic_io_interface] *)

Module basic_io_interface.

(** Modelled from the spec: the class [basic_io_interface]
    (net_ip/basic_io_interface.hpp is not among the sources).  A handle is
    a weak reference to an io handler and never owns it; the default
    constructed handle refers to nothing. *)
Record t : Set := mk { m_ioh_wptr : option N }.

(** Modelled from the spec: the default constructor of
    [basic_io_interface], which gives an invalid handle. *)
Definition default : t := mk None.

(** Modelled from the spec: the constructor of [basic_io_interface] from
    a shared handler, as the tests call it ([io_interface_mock(iop)]). *)
Definition of_shared (a : N) : t := mk (Some a).

Section operations.
Context {IOH : Type} `{!IOHandler IOH}.

(** Modelled from the spec: upgrading the weak reference of a
    [basic_io_interface] on each call; the upgrade fails when there is no
    live referent. *)
Definition lock (σ : store IOH) (io : t) : option (N * IOH) :=
  a ← m_ioh_wptr io; h ← σ !! a; Some (a, h).

(** Modelled from the spec: [basic_io_interface::is_valid], true exactly
    for a handle with a live referent. *)
Definition is_valid (σ : store IOH) (io : t) : bool :=
  match lock σ io with Some _ => true | None => false end.

(** Modelled from the spec: [basic_io_interface::is_io_started], the
    handler flag, or failure with [invalid_handle].  The spec's table does
    not say how the failure reaches the caller;
    [basic_io_interface_test_default_constructed] requires the call to
    throw ([REQUIRE_THROWS (io_intf.is_io_started())]), so the failure is
    an exception. *)
Definition is_io_started (σ : store IOH) (io : t) : outcome bool :=
  match lock σ io with
  | Some (_, h) => Returned (ioh_is_io_started h)
  | None => Threw invalid_handle
  end.

(** Modelled from the spec: [basic_io_interface::get_socket], the socket
    of the handler, or failure with [invalid_handle]; as for
    [is_io_started] the test requires the failure to be an exception
    ([REQUIRE_THROWS (io_intf.get_socket())]). *)
Definition get_socket (σ : store IOH) (io : t) : outcome socket_type :=
  match lock σ io with
  | Some (_, h) => Returned (ioh_get_socket h)
  | None => Threw invalid_handle
  end.

(** Modelled from the spec: [basic_io_interface::get_output_queue_stats],
    the snapshot of the handler, or failure with [invalid_handle]; the
    test requires the failure to be an exception
    ([REQUIRE_THROWS (io_intf.get_output_queue_stats())]), and
    [send_to_all] reads the members of the value returned without any
    test, so a value is returned only by a valid handle. *)
Definition get_output_queue_stats (σ : store IOH) (io : t)
    : outcome output_queue_stats :=
  match lock σ io with
  | Some (_, h) => Returned (ioh_get_output_queue_stats h)
  | None => Threw invalid_handle
  end.

(** Modelled from the spec: [basic_io_interface::send(buf)]; a valid
    handle passes the buffer to the handler and returns true, an invalid
    one returns false. *)
Definition send (buf : Msg.shared_buffer) (io : t) (σ : store IOH)
    : bool * store IOH :=
  match lock σ io with
  | Some (a, h) => (true, <[a := ioh_send buf h]> σ)
  | None => (false, σ)
  end.

(** Modelled from the spec: [basic_io_interface::send(buf, sz)], which
    sends the first [sz] bytes at [buf]. *)
Definition send_raw (buf : list byte) (sz : Z) (io : t) (σ : store IOH)
    : bool * store IOH :=
  send (take (Z.to_nat sz) buf) io σ.

(** Modelled from the spec: [basic_io_interface::send] of a
    [mutable_shared_buffer&&], which is moved into a constant buffer. *)
Definition send_mutable (buf : Msg.shared_buffer) (io : t) (σ : store IOH)
    : bool * store IOH :=
  send buf io σ.

(** Modelled from the spec: [basic_io_interface::send(buf, endp)], the
    overloads of [send] with a destination endpoint. *)
Definition send_to (buf : Msg.shared_buffer) (endp : endpoint_type) (io : t)
    (σ : store IOH) : bool * store IOH :=
  match lock σ io with
  | Some (a, h) => (true, <[a := ioh_send_to buf endp h]> σ)
  | None => (false, σ)
  end.

(** Modelled from the spec: [basic_io_interface::send(buf, sz, endp)]. *)
Definition send_raw_to (buf : list byte) (sz : Z) (endp : endpoint_type)
    (io : t) (σ : store IOH) : bool * store IOH :=
  send_to (take (Z.to_nat sz) buf) endp io σ.

(** Modelled from the spec: [basic_io_interface::send] of a
    [mutable_shared_buffer&&] with a destination endpoint. *)
Definition send_mutable_to (buf : Msg.shared_buffer) (endp : endpoint_type)
    (io : t) (σ : store IOH) : bool * store IOH :=
  send_to buf endp io σ.

(** Modelled from the spec: [basic_io_interface::start_io], every
    overload; a valid handle delegates to the handler, an invalid one
    returns false. *)
Definition start_io (args : start_io_args endpoint_type) (io : t)
    (σ : store IOH) : bool * store IOH :=
  match lock σ io with
  | Some (a, h) => let '(r, h') := ioh_start_io args h in (r, <[a := h']> σ)
  | None => (false, σ)
  end.

(** Modelled from the spec: [basic_io_interface::stop_io]; a valid handle
    delegates to the handler, an invalid one returns false. *)
Definition stop_io (io : t) (σ : store IOH) : bool * store IOH :=
  match lock σ io with
  | Some (a, h) => let '(r, h') := ioh_stop_io h in (r, <[a := h']> σ)
  | None => (false, σ)
  end.

(** Modelled from the spec: [operator==] of [basic_io_interface]; two
    handles are equal iff they refer to the same handler control block, or
    both are invalid. *)
Definition eqb (σ : store IOH) (lhs rhs : t) : bool :=
  match lock σ lhs, lock σ rhs with
  | Some (a, _), Some (b, _) => bool_decide (a = b)
  | None, None => true
  | _, _ => false
  end.

(** Modelled from the spec: [operator<] of [basic_io_interface]; an
    invalid handle is less than a valid one, and valid handles are ordered
    by the identity of their handler. *)
Definition ltb (σ : store IOH) (lhs rhs : t) : bool :=
  match lock σ lhs, lock σ rhs with
  | Some (a, _), Some (b, _) => bool_decide (a < b)%N
  | None, Some _ => true
  | _, None => false
  end.

(** [lhs > rhs] is [rhs < lhs]. *)
Definition gtb (σ : store IOH) (lhs rhs : t) : bool := ltb σ rhs lhs.

End operations.

End basic_io_interface.

(** ** [msg_hdlr] *)

Module msg_hdlr.

(** The function object.  Its member [cnt] is a reference to a counter
    ([std::atomic_size_t]) that lives outside; the counter is passed to
    the call and returned by it. *)
Record t : Set := mk { reply : bool }.

Section call.
Context {IOT : Type} `{!IOHandler IOT}.

(** [operator()(buf, io_intf, endp)]: the value returned, the counter and
    the store of handlers after the call. *)
Definition call (mh : t) (buf : Msg.shared_buffer)
    (io_intf : basic_io_interface.t) (endp : endpoint_type)
    (cnt : Z) (σ : store IOT) : bool * (Z * store IOT) :=
  let sh_buf := buf in
  if 2 <? Msg.size sh_buf then
    let cnt := Int.to_size_t (cnt + 1) in
    let σ :=
      if reply mh then (basic_io_interface.send_to sh_buf endp io_intf σ).2
      else σ in
    (true, (cnt, σ))
  else
    let σ :=
      if reply mh then (basic_io_interface.send_to sh_buf endp io_intf σ).2
      else σ in
    (false, (cnt, σ)).

End call.

End msg_hdlr.

(** ** [send_to_all] *)

Module send_to_all.

(** The collection; the mutex that guards it is not modelled, every
    member function runs from start to end on its own. *)
Record t : Set := mk { m_io_intfs : list basic_io_interface.t }.

(** The implicitly defined default constructor. *)
Definition empty : t := mk [].

(** [add_io_interface(io)] *)
Definition add_io_interface (io : basic_io_interface.t) (s : t) : t :=
  mk (m_io_intfs s ++ [io]).

(** [size()] *)
Definition size (s : t) : Z := Z.of_nat (length (m_io_intfs s)).

(** A call [io.send(buf)] on a member, and the value it returned. *)
Record send_call : Set := mk_send_call {
  call_io : basic_io_interface.t;
  call_buf : Msg.shared_buffer;
  call_returned : bool
}.

Section members.
Context {IOH : Type} `{!IOHandler IOH}.

(** The handlers that the valid members refer to, in the order of the
    members, one entry for each valid member. *)
Definition valid_members (σ : store IOH) (s : t) : list N :=
  omap (λ io, fst <$> basic_io_interface.lock σ io) (m_io_intfs s).

(** One turn of the loop of [send]: [io.send(buf)] is called on the
    handlers as the turns before have left them, and the call is written
    down after the calls made so far. *)
Definition send_turn (buf : Msg.shared_buffer)
    (st : list send_call * store IOH) (io : basic_io_interface.t)
    : list send_call * store IOH :=
  let '(returned, σ) := basic_io_interface.send buf io st.2 in
  (st.1 ++ [mk_send_call io buf returned], σ).

(** The loop of [send], [for (auto io : m_io_intfs) { io.send(buf); }]:
    the calls it makes, first call first, and the store of handlers it
    leaves. *)
Definition send_each (buf : Msg.shared_buffer) (s : t) (σ : store IOH)
    : list send_call * store IOH :=
  foldl (send_turn buf) ([], σ) (m_io_intfs s).

(** [send(buf)]: the collection and the store of handlers after the
    call. *)
Definition send (buf : Msg.shared_buffer) (s : t) (σ : store IOH)
    : t * store IOH :=
  (s, (send_each buf s σ).2).

(** The calls of [io.send(buf)] that [send(buf)] makes, in the order in
    which it makes them. *)
Definition send_calls (buf : Msg.shared_buffer) (s : t) (σ : store IOH)
    : list send_call :=
  (send_each buf s σ).1.

(** [send(buf, sz)] *)
Definition send_raw (buf : list byte) (sz : Z) (s : t) (σ : store IOH)
    : t * store IOH :=
  send (take (Z.to_nat sz) buf) s σ.

(** [send(mutable_shared_buffer&&)] *)
Definition send_mutable (buf : Msg.shared_buffer) (s : t) (σ : store IOH)
    : t * store IOH :=
  send buf s σ.

(** One turn of the loop of [get_total_output_queue_stats]. *)
Definition add_stats (σ : store IOH) (tot : outcome output_queue_stats)
    (io : basic_io_interface.t) : outcome output_queue_stats :=
  tot ←! tot;
  qs ←! basic_io_interface.get_output_queue_stats σ io;
  Returned (mk_output_queue_stats
    (Int.to_size_t (output_queue_size tot + output_queue_size qs))
    (Int.to_size_t (bytes_in_output_queue tot + bytes_in_output_queue qs))).

(** [get_total_output_queue_stats()], declared [noexcept]. *)
Definition get_total_output_queue_stats (s : t) (σ : store IOH)
    : outcome output_queue_stats :=
  let tot := mk_output_queue_stats 0 0 in
  noexcept (foldl (add_stats σ) (Returned tot) (m_io_intfs s)).

End members.

End send_to_all.

(** ** [make_msg_vec] *)

Module msg_vec.

Section make_msg_vec.

(** [chops::repeat] (utility/repeat.hpp is not among the sources) is a
    parameter: [repeat n f] run on a state. *)
Variable repeat : ∀ S : Type, Z → (Z → S → S) → S → S.

(** [make_msg_vec(func, pre, body_char, num_msgs)].  [func] may abort, as
    [make_variable_len_msg] does; the vector is then never returned. *)
Definition make_msg_vec (func : Msg.shared_buffer → option Msg.shared_buffer)
    (pre : string) (body_char : ascii) (num_msgs : Z)
    : option (list Msg.shared_buffer) :=
  repeat _ num_msgs
    (λ i vec,
       vec ← vec;
       msg ← func (Msg.make_body_buf pre body_char
                     (Z.to_nat (Int.to_size_t (i + 1))));
       Some (vec ++ [msg]))
    (Some []).

End make_msg_vec.

(** The largest [int], the type of [num_msgs]. *)
Definition int_max : Z := 2147483647.

(** The behaviour [repeat_test.cpp] checks of [chops::repeat]: the
    function is called [n] times, with the indices 0, 1, ... in this
    order ([myfunc_b] requires the counter to equal the index at every
    call, and the counter to be [N] at the end). *)
Definition repeat_loop (S : Type) (n : Z) (f : Z → S → S) (s : S) : S :=
  foldl (λ s i, f i s) s (seqZ 0 n).

End msg_vec.

(** ** All the operations of [io_handler_mock] in sequence *)

Module io_handler_mock_ops.
Import io_handler_mock.

(** A call of a member function that can change the handler. *)
Inductive op : Type :=
| op_send (buf : Msg.shared_buffer)
| op_send_to (buf : Msg.shared_buffer) (endp : endpoint)
| op_start_io (args : start_io_args endpoint)
| op_stop_io.

Definition apply (o : op) (h : t) : t :=
  match o with
  | op_send buf => send buf h
  | op_send_to buf endp => send_to buf endp h
  | op_start_io args => (start_io args h).2
  | op_stop_io => (stop_io h).2
  end.

Definition run_ops (ops : list op) (h : t) : t :=
  foldl (λ h o, apply o h) h ops.

(** The member that an overload of [start_io] sets. *)
Definition sio_called (args : start_io_args endpoint) (h : t) : bool :=
  match args with
  | sio_msg_frame _ => mf_sio_called h
  | sio_delim _ => delim_sio_called h
  | sio_read _ => rd_sio_called h
  | sio_read_endp _ _ => rd_endp_sio_called h
  | sio_send => send_sio_called h
  | sio_send_endp _ => send_endp_sio_called h
  end.

(** Two argument lists select the same overload. *)
Definition same_overload (a b : start_io_args endpoint) : bool :=
  match a, b with
  | sio_msg_frame _, sio_msg_frame _
  | sio_delim _, sio_delim _
  | sio_read _, sio_read _
  | sio_read_endp _ _, sio_read_endp _ _
  | sio_send, sio_send
  | sio_send_endp _, sio_send_endp _ => true
  | _, _ => false
  end.

Definition is_send (o : op) : bool :=
  match o with op_send _ | op_send_to _ _ => true | _ => false end.

Definition is_start_io_of (args : start_io_args endpoint) (o : op) : bool :=
  match o with op_start_io a => same_overload a args | _ => false end.

End io_handler_mock_ops.

(** ** [io_handler_base_mock] of the handle tests *)

Module io_handler_base_mock.

Record t : Set := mk { started : bool }.

Definition init : t := mk false.

Definition qs_base : Z := 42.

Definition is_io_started (h : t) : bool := started h.

Definition get_output_queue_stats (h : t) : output_queue_stats :=
  mk_output_queue_stats qs_base (qs_base + 1).

(** The eight overloads of [start_io]; the two endpoint types are both
    modelled by [endpoint]. *)
Inductive start_io_overload : Type :=
| base_msg_frame (header_size : Z)
| base_delim (delim : string)
| base_read (max_size : Z)
| base_read_tcp_endp (max_size : Z) (endp : endpoint)
| base_read_udp_endp (max_size : Z) (endp : endpoint)
| base_send
| base_send_tcp_endp (endp : endpoint)
| base_send_udp_endp (endp : endpoint).

(** Every overload has the body [{ started = true; }]. *)
Definition start_io (o : start_io_overload) (h : t) : t := mk true.

(** [{ started = false; }] *)
Definition stop_io (h : t) : t := mk false.

Inductive call : Type :=
| call_start_io (o : start_io_overload)
| call_stop_io.

Definition step (c : call) (h : t) : t :=
  match c with
  | call_start_io o => start_io o h
  | call_stop_io => stop_io h
  end.

Definition run (cs : list call) (h : t) : t := foldl (λ h c, step c h) h cs.

Definition is_stop_io (c : call) : bool :=
  match c with call_stop_io => true | call_start_io _ => false end.

End io_handler_base_mock.

(** ** [net_entity_mock] *)

Module net_entity_mock.

(** A call of one of the two function objects given to [start]. *)
Inductive event : Set :=
| io_state_chg (io : basic_io_interface.t) (num : Z) (starting : bool)
| err_func (io : basic_io_interface.t) (err : net_ip_errc).

(** The entity.  [iop] is the address of the handler made by the
    constructor.  [thr] is [Some] while the thread object is joinable and
    then holds the calls its thread makes; the pauses of the thread are
    not modelled.  [called] lists the calls made by the threads that have
    been joined, a thread having made all its calls when [join] returns.
    The member [dummy] is a floating point number and is left out. *)
Record t : Set := mk {
  iop : N;
  thr : option (list event);
  started : bool;
  called : list event
}.

(** The constructor, for a handler made at address [a]. *)
Definition init (a : N) : t := mk a None false [].

Definition set_started (b : bool) (s : t) : t :=
  mk (iop s) (thr s) b (called s).

(** How a call ends: it returns, it throws [std::system_error], or the
    program is terminated. *)
Inductive result (A : Type) : Type :=
| Ok (a : A) (s : t)
| SystemError (s : t)
| Terminate.
Arguments Ok {A} a s.
Arguments SystemError {A} s.
Arguments Terminate {A}.

Definition is_started (s : t) : bool := started s.

(** What the thread made by [start] does. *)
Definition thread_body (s : t) : list event :=
  [ io_state_chg (basic_io_interface.of_shared (iop s)) 1 true;
    err_func (basic_io_interface.of_shared (iop s)) message_handler_terminated;
    io_state_chg (basic_io_interface.of_shared (iop s)) 0 false ].

(** [start(io_state_chg_func, err_func)].  Assigning to a thread object
    that is joinable terminates the program. *)
Definition start (s : t) : result bool :=
  if started s then Ok false s
  else
    let s := set_started true s in
    match thr s with
    | Some _ => Terminate
    | None => Ok true (mk (iop s) (Some (thread_body s)) (started s) (called s))
    end.

(** [join_thr()].  Joining a thread object that is not joinable throws. *)
Definition join_thr (s : t) : result unit :=
  match thr s with
  | Some evs => Ok () (mk (iop s) None (started s) (called s ++ evs))
  | None => SystemError s
  end.

(** [stop()] *)
Definition stop (s : t) : result bool :=
  if negb (started s) then Ok false s
  else
    let s := set_started false s in
    match join_thr s with
    | Ok _ s => Ok true s
    | SystemError s => SystemError s
    | Terminate => Terminate
    end.

(** The thread object is joinable exactly while the entity is started,
    and then holds the thread that [start] made.  The constructor
    establishes this. *)
Definition thread_matches (s : t) : Prop :=
  thr s = if started s then Some (thread_body s) else None.

(** A call of [start] or of [stop]. *)
Inductive call : Set := call_start | call_stop.

Definition step (c : call) (s : t) : result bool :=
  match c with call_start => start s | call_stop => stop s end.

(** A sequence of calls; it ends at the first call that does not
    return. *)
Fixpoint run (cs : list call) (s : t) : result (list bool) :=
  match cs with
  | [] => Ok [] s
  | c :: cs =>
      match step c s with
      | Ok r s =>
          match run cs s with
          | Ok rs s => Ok (r :: rs) s
          | SystemError s => SystemError s
          | Terminate => Terminate
          end
      | SystemError s => SystemError s
      | Terminate => Terminate
      end
  end.

End net_entity_mock.

(** ** Facts about the machine integers *)

Section int_facts.
Import Int.

Lemma Z_of_byte_range b : 0 ≤ Z_of_byte b < 256.
Proof.
  unfold Z_of_byte. pose proof (Byte.to_N_bounded b) as Hb.
  split; [apply N2Z.is_nonneg|].
  apply N2Z.inj_le in Hb. change (Z.of_N 255) with 255 in Hb. lia.
Qed.

Lemma Z_of_byte_of_Z z : 0 ≤ z < 256 → Z_of_byte (byte_of_Z z) = z.
Proof.
  intros Hz. unfold Z_of_byte, byte_of_Z.
  rewrite Z.mod_small by lia.
  destruct (Byte.of_N (Z.to_N z)) as [b|] eqn:Hof; simpl.
  - apply Byte.to_of_N in Hof. rewrite Hof. rewrite Z2N.id; lia.
  - apply Byte.of_N_None_iff in Hof. lia.
Qed.

Lemma land_255_range x : 0 ≤ Z.land x 255 < 256.
Proof.
  change 255 with (Z.ones 8). rewrite Z.land_ones by lia.
  apply Z.mod_pos_bound. lia.
Qed.

Lemma testbit_high16 x n : 0 ≤ x < 2 ^ 16 → 16 ≤ n → Z.testbit x n = false.
Proof.
  intros Hx Hn. destruct (decide (x = 0)) as [->|Hnz].
  - apply Z.bits_0.
  - apply Z.bits_above_log2; [lia|].
    apply Z.lt_le_trans with 16; [apply Z.log2_lt_pow2; lia|lia].
Qed.

Lemma testbit_255 n : Z.testbit 255 n = (0 <=? n) && (n <? 8).
Proof. change 255 with (Z.ones 8). by rewrite Z.testbit_ones. Qed.

(** Unfold every bit operation at bit [n] and split on where [n] lies. *)
Ltac bit_cases n :=
  repeat first
    [ rewrite Z.lor_spec | rewrite Z.land_spec | rewrite testbit_255
    | rewrite Z.shiftr_spec by lia | rewrite Z.shiftl_spec by lia
    | match goal with
      | |- context [ ?a <? ?b ] => destruct (Z.ltb_spec a b)
      | |- context [ ?a <=? ?b ] => destruct (Z.leb_spec a b)
      end
    | rewrite andb_true_r | rewrite andb_false_r
    | rewrite orb_false_r | rewrite orb_false_l ];
  try lia;
  repeat match goal with
    | |- context [ Z.testbit ?x ?i ] =>
        lazymatch i with
        | n => fail
        | _ => replace i with n by lia
        end
    end;
  try done.

(** Splitting a 16 bit value into its two bytes and gluing them again. *)
Lemma lor_split16 x :
  0 ≤ x < 2 ^ 16 →
  Z.lor (Z.land x 255) (Z.shiftl (Z.land (Z.shiftr x 8) 255) 8) = x.
Proof.
  intros Hx. apply Z.bits_inj'. intros n Hn. bit_cases n.
  symmetry. apply testbit_high16; lia.
Qed.

Lemma endian_reverse_low x :
  Z.land (endian_reverse x) 255 = Z.land (Z.shiftr x 8) 255.
Proof.
  unfold endian_reverse. apply Z.bits_inj'. intros n Hn. bit_cases n.
Qed.

Lemma endian_reverse_high x :
  Z.land (Z.shiftr (endian_reverse x) 8) 255 = Z.land x 255.
Proof.
  unfold endian_reverse. apply Z.bits_inj'. intros n Hn. bit_cases n.
Qed.

Lemma endian_reverse_involutive x :
  0 ≤ x < 2 ^ 16 → endian_reverse (endian_reverse x) = x.
Proof.
  intros Hx. unfold endian_reverse at 1.
  rewrite endian_reverse_low, endian_reverse_high.
  rewrite Z.lor_comm. by apply lor_split16.
Qed.

(** What the object of a header holds is, in both byte orders, the high
    byte of the length followed by its low byte. *)
Lemma object_bytes_native_to_big e x :
  object_bytes e (native_to_big e x) =
    [byte_of_Z (Z.land (Z.shiftr x 8) 255); byte_of_Z (Z.land x 255)].
Proof.
  destruct e; simpl; unfold object_bytes; [|done].
  by rewrite endian_reverse_low, endian_reverse_high.
Qed.

(** Reading the header object back gives the value that was written. *)
Lemma big_to_native_object_value e x :
  0 ≤ x < 2 ^ 16 →
  big_to_native e
    (object_value e (byte_of_Z (Z.land (Z.shiftr x 8) 255))
                    (byte_of_Z (Z.land x 255))) = x.
Proof.
  intros Hx. unfold object_value.
  rewrite !Z_of_byte_of_Z by apply land_255_range.
  destruct e; simpl.
  - rewrite <- (endian_reverse_involutive x) at 3 by done.
    f_equal. unfold endian_reverse. by rewrite Z.lor_comm.
  - by apply lor_split16.
Qed.

End int_facts.

(** ** The message builders and the header decoder *)

Section framing.
Import Int Msg.

Lemma size_nonneg (buf : shared_buffer) : 0 ≤ size buf.
Proof. unfold size. lia. Qed.

Lemma size_app (b1 b2 : shared_buffer) : size (b1 ++ b2) = size b1 + size b2.
Proof. unfold size. rewrite length_app. lia. Qed.

Lemma size_make_cr_lf_text_msg body : size (make_cr_lf_text_msg body) = size body + 2.
Proof. unfold make_cr_lf_text_msg. by rewrite size_app. Qed.

Lemma size_make_lf_text_msg body : size (make_lf_text_msg body) = size body + 1.
Proof. unfold make_lf_text_msg. by rewrite size_app. Qed.

(** The encoder either aborts or prepends two bytes. *)
Lemma make_variable_len_msg_Some e body msg :
  make_variable_len_msg e body = Some msg →
  size body < uint16_max ∧ size msg = size body + 2 ∧ drop 2 msg = body.
Proof.
  unfold make_variable_len_msg. destruct (Z.ltb_spec (size body) uint16_max); [|done].
  intros [= <-]. rewrite object_bytes_native_to_big, size_app.
  repeat split; [done|unfold size; simpl; lia].
Qed.

(** The header written for a length that fits 16 bits decodes to that
    length, whatever the byte order of the machine. *)
Lemma decode_header_of_length e n :
  0 ≤ n < 2 ^ 16 →
  decode_variable_len_msg_hdr e (object_bytes e (native_to_big e (to_uint16 n)))
    = Some n.
Proof.
  intros Hn. unfold to_uint16. rewrite Z.mod_small by done.
  rewrite object_bytes_native_to_big. simpl.
  rewrite big_to_native_object_value by done.
  unfold to_size_t, size_t_modulus, size_t_width.
  rewrite Z.mod_small; [done|]. split; [lia|].
  apply Z.lt_trans with (2 ^ 16); [lia|]. by apply Z.pow_lt_mono_r.
Qed.

(** C3 (as amended): for every body whose length is below 65535, the
    bound the encoder asserts, [make_variable_len_msg] returns a message,
    [decode_variable_len_msg_hdr] applied to its first two bytes gives the
    length of the body, and the body follows the header unchanged.  This
    holds on little endian and on big endian machines. *)
Theorem decode_make_variable_len_msg (e : endianness) (body : shared_buffer) :
  size body < uint16_max →
  ∃ msg, make_variable_len_msg e body = Some msg
       ∧ decode_variable_len_msg_hdr e (take 2 msg) = Some (size body)
       ∧ drop 2 msg = body.
Proof.
  intros Hlt. unfold make_variable_len_msg.
  destruct (Z.ltb_spec (size body) uint16_max) as [_|Hge]; [|lia].
  eexists. split; [done|].
  pose proof (size_nonneg body) as H0.
  assert (0 ≤ size body < 2 ^ 16) as Hrange by (unfold uint16_max in Hlt; lia).
  split.
  - rewrite <- (decode_header_of_length e (size body)) by done.
    f_equal. by rewrite object_bytes_native_to_big.
  - by rewrite object_bytes_native_to_big.
Qed.

Lemma decode_make_variable_len_msg_witness :
  ∃ msg, make_variable_len_msg little (make_body_buf "HappyNewYear!" "Q" 10) = Some msg
       ∧ decode_variable_len_msg_hdr little (take 2 msg)
           = Some (size (make_body_buf "HappyNewYear!" "Q" 10))
       ∧ drop 2 msg = make_body_buf "HappyNewYear!" "Q" 10.
Proof.
  apply (decode_make_variable_len_msg little (make_body_buf "HappyNewYear!" "Q" 10)).
  vm_compute. reflexivity.
Defined.

(** C3 (as stated) fails: a body of 65535 bytes has a length below 2^16,
    but the encoder asserts [body.size() < 65535] and aborts, so there is
    no header to decode. *)
Lemma decode_make_variable_len_msg_counterexample :
  let body := replicate (Z.to_nat 65535) x00 in
  ¬ (0 ≤ size body < 2 ^ 16 →
     ∀ e, (msg ← make_variable_len_msg e body;
           decode_variable_len_msg_hdr e (take 2 msg)) = Some (size body)).
Proof.
  intros body Hclaim.
  assert (0 ≤ size body < 2 ^ 16) as Hrange by (vm_compute; split; congruence).
  specialize (Hclaim Hrange little).
  assert (make_variable_len_msg little body = None) as Hnone
    by (vm_compute; reflexivity).
  rewrite Hnone in Hclaim. discriminate Hclaim.
Qed.

(** C9: the body "HappyNewYear!" followed by ten 'Q' is the 23 bytes of
    "HappyNewYear!QQQQQQQQQQ"; [make_variable_len_msg] turns it into a
    message of exactly 25 bytes, the header bytes 0x00 0x17 followed by
    the body unchanged. *)
Theorem make_variable_len_msg_happy_new_year :
  let body := make_body_buf "HappyNewYear!" "Q" 10 in
  body = list_byte_of_string "HappyNewYear!QQQQQQQQQQ"
  ∧ size body = 23
  ∧ ∀ e, ∃ msg, make_variable_len_msg e body = Some msg
       ∧ size msg = 25
       ∧ msg = [x00; x17] ++ body.
Proof.
  intros body. split; [by vm_compute|]. split; [by vm_compute|].
  intros e. exists ([x00; x17] ++ body).
  split; [|split; [by vm_compute|done]].
  destruct e; by vm_compute.
Qed.

(** The other checks of [make_msg_test]: the bytes after the header, and
    the header of a body of 513 bytes. *)
Example make_variable_len_msg_bytes e :
  ∃ msg, make_variable_len_msg e (make_body_buf "HappyNewYear!" "Q" 10) = Some msg
    ∧ msg !! 2%nat = Some x48 ∧ msg !! 3%nat = Some x61
    ∧ msg !! 15%nat = Some x51 ∧ msg !! 16%nat = Some x51.
Proof. destruct e; by eexists. Qed.

Example make_variable_len_msg_513 e :
  ∃ msg, make_variable_len_msg e (make_body_buf "HappyNewYear!" "Q" 500) = Some msg
    ∧ size msg = 515 ∧ take 2 msg = [x02; x01].
Proof. destruct e; eexists; (split; [by vm_compute|by vm_compute]). Qed.

(** Without the assertion the header holds the length modulo 2^16, and the
    frame function reads it back. *)
Lemma variable_len_msg_frame_make e body :
  shared_utility_test_cpp.variable_len_msg_frame e
    (shared_utility_test_cpp.make_variable_len_msg e body)
  = Some (size body mod 2 ^ 16).
Proof.
  unfold shared_utility_test_cpp.make_variable_len_msg.
  rewrite object_bytes_native_to_big. simpl.
  rewrite big_to_native_object_value by (apply Z.mod_pos_bound; lia).
  unfold to_uint16, to_size_t, size_t_modulus, size_t_width.
  f_equal. apply Z.mod_small.
  pose proof (Z.mod_pos_bound (size body) (2 ^ 16)) as Hb. lia.
Qed.

(** The check of the frame function in the tests: 0x02 0x01 is 513. *)
Example variable_len_msg_frame_513 e :
  shared_utility_test_cpp.variable_len_msg_frame e [x02; x01] = Some 513.
Proof. by destruct e. Qed.

End framing.

(** ** The [basic_io_interface] handle *)

Section handle.
Import basic_io_interface.
Context {IOH : Type} `{!IOHandler IOH}.
Implicit Types (σ : store IOH) (io lhs rhs : basic_io_interface.t).

Lemma lock_default σ : lock σ default = None.
Proof. done. Qed.

Lemma default_is_invalid σ : is_valid σ default = false.
Proof. done. Qed.

Lemma is_valid_false σ io : is_valid σ io = false ↔ lock σ io = None.
Proof. unfold is_valid. destruct (lock σ io); split; done. Qed.

Lemma is_valid_true σ io :
  is_valid σ io = true ↔ ∃ a h, m_ioh_wptr io = Some a ∧ σ !! a = Some h.
Proof.
  unfold is_valid, lock. destruct io as [[a|]]; simpl.
  - destruct (σ !! a) as [h|] eqn:Ha; simpl.
    + split; [intros _; by exists a, h|done].
    + split; [done|]. intros (b & h & [= <-] & Hb). congruence.
  - split; [done|]. by intros (b & h & ? & _).
Qed.

Lemma lock_Some σ io a h :
  lock σ io = Some (a, h) ↔ m_ioh_wptr io = Some a ∧ σ !! a = Some h.
Proof.
  unfold lock. destruct io as [[b|]]; simpl.
  - destruct (σ !! b) as [h'|] eqn:Hb; simpl.
    + split; [by intros [= -> ->]|]. intros [[= ->] Ha]. congruence.
    + split; [done|]. intros [[= ->] Ha]. congruence.
  - split; [done|]. by intros [? _].
Qed.

(** An expired handle: the handler it referred to is gone. *)
Lemma expired_is_invalid σ a : σ !! a = None → is_valid σ (of_shared a) = false.
Proof. intros Ha. unfold is_valid, lock. simpl. by rewrite Ha. Qed.

(** C1 (as amended): on every invalid handle, and so on every default
    constructed one, [is_io_started], [get_socket] and
    [get_output_queue_stats] return no value: each fails with
    [invalid_handle], and the failure is an exception thrown to the
    caller. *)
Theorem invalid_handle_accessors_throw σ io :
  is_valid σ io = false →
  is_io_started σ io = Threw invalid_handle
  ∧ get_socket σ io = Threw invalid_handle
  ∧ get_output_queue_stats σ io = Threw invalid_handle.
Proof.
  intros Hinv%is_valid_false.
  unfold is_io_started, get_socket, get_output_queue_stats.
  by rewrite Hinv.
Qed.

(** C4: on every invalid handle, and so on every default constructed one,
    every overload of [send], every overload of [start_io], and [stop_io]
    return false, and the store of handlers is left as it was. *)
Theorem invalid_handle_operations_return_false σ io :
  is_valid σ io = false →
  ∀ (buf : Msg.shared_buffer) (sz : Z) (endp : endpoint_type)
    (args : start_io_args endpoint_type),
    send_raw buf sz io σ = (false, σ)
    ∧ send buf io σ = (false, σ)
    ∧ send_mutable buf io σ = (false, σ)
    ∧ send_raw_to buf sz endp io σ = (false, σ)
    ∧ send_to buf endp io σ = (false, σ)
    ∧ send_mutable_to buf endp io σ = (false, σ)
    ∧ start_io args io σ = (false, σ)
    ∧ stop_io io σ = (false, σ).
Proof.
  intros Hinv%is_valid_false buf sz endp args.
  unfold send_raw, send_mutable, send_raw_to, send_mutable_to,
    send, send_to, start_io, stop_io.
  by rewrite Hinv.
Qed.

Lemma eqb_true σ lhs rhs :
  eqb σ lhs rhs = true ↔
    (∃ a h, lock σ lhs = Some (a, h) ∧ lock σ rhs = Some (a, h))
    ∨ (is_valid σ lhs = false ∧ is_valid σ rhs = false).
Proof.
  rewrite !is_valid_false. unfold eqb.
  destruct (lock σ lhs) as [[a h]|] eqn:Hl, (lock σ rhs) as [[b k]|] eqn:Hr.
  - rewrite bool_decide_eq_true. split.
    + intros ->. left. exists b, h. split; [done|].
      apply lock_Some in Hl as [_ Hl]. apply lock_Some in Hr as [_ Hr].
      congruence.
    + intros [(c & x & [= -> ->] & [= -> ->])|[? _]]; done.
  - split; [done|]. intros [(c & x & _ & ?)|[? _]]; done.
  - split; [done|]. intros [(c & x & ? & _)|[_ ?]]; done.
  - split; [by right|done].
Qed.

Lemma ltb_irrefl σ io : ltb σ io io = false.
Proof.
  unfold ltb. destruct (lock σ io) as [[a h]|]; [|done].
  apply bool_decide_eq_false. lia.
Qed.

Lemma ltb_trans σ io1 io2 io3 :
  ltb σ io1 io2 = true → ltb σ io2 io3 = true → ltb σ io1 io3 = true.
Proof.
  unfold ltb.
  destruct (lock σ io1) as [[a1 h1]|], (lock σ io2) as [[a2 h2]|],
    (lock σ io3) as [[a3 h3]|]; try done.
  rewrite !bool_decide_eq_true. lia.
Qed.

(** Two handles neither of which is less than the other are the equal
    ones. *)
Lemma incomparable_eqb σ lhs rhs :
  ltb σ lhs rhs = false ∧ ltb σ rhs lhs = false ↔ eqb σ lhs rhs = true.
Proof.
  unfold ltb, eqb.
  destruct (lock σ lhs) as [[a h]|], (lock σ rhs) as [[b k]|].
  - rewrite !bool_decide_eq_false, bool_decide_eq_true. lia.
  - split; [by intros [_ ?]|done].
  - split; [by intros [? _]|done].
  - done.
Qed.

Lemma eqb_trans σ io1 io2 io3 :
  eqb σ io1 io2 = true → eqb σ io2 io3 = true → eqb σ io1 io3 = true.
Proof.
  unfold eqb.
  destruct (lock σ io1) as [[a1 h1]|], (lock σ io2) as [[a2 h2]|],
    (lock σ io3) as [[a3 h3]|]; try done.
  rewrite !bool_decide_eq_true. congruence.
Qed.

(** C5: two handles are equal iff both refer to the same live handler or
    both are invalid; [<] is a strict weak order (irreflexive, transitive,
    and being incomparable is transitive, incomparable handles being the
    equal ones); every invalid handle is less than every valid handle;
    valid handles are ordered by the address of their handler; and no
    handle is less or greater than itself. *)
Theorem handle_equality_and_order σ io1 io2 io3 :
  (eqb σ io1 io2 = true ↔
     (∃ a h, lock σ io1 = Some (a, h) ∧ lock σ io2 = Some (a, h))
     ∨ (is_valid σ io1 = false ∧ is_valid σ io2 = false))
  ∧ (ltb σ io1 io1 = false ∧ gtb σ io1 io1 = false)
  ∧ (ltb σ io1 io2 = true → ltb σ io2 io3 = true → ltb σ io1 io3 = true)
  ∧ (ltb σ io1 io2 = false ∧ ltb σ io2 io1 = false →
     ltb σ io2 io3 = false ∧ ltb σ io3 io2 = false →
     ltb σ io1 io3 = false ∧ ltb σ io3 io1 = false)
  ∧ (ltb σ io1 io2 = false ∧ ltb σ io2 io1 = false ↔ eqb σ io1 io2 = true)
  ∧ (is_valid σ io1 = false → is_valid σ io2 = true →
     ltb σ io1 io2 = true ∧ ltb σ io2 io1 = false)
  ∧ (∀ a b h k, lock σ io1 = Some (a, h) → lock σ io2 = Some (b, k) →
     (ltb σ io1 io2 = true ↔ (a < b)%N)).
Proof.
  split; [apply eqb_true|].
  split; [split; apply ltb_irrefl|].
  split; [apply ltb_trans|].
  split.
  { rewrite !incomparable_eqb. apply eqb_trans. }
  split; [apply incomparable_eqb|].
  split.
  - intros Hinv%is_valid_false Hval. unfold is_valid in Hval. unfold ltb.
    rewrite Hinv. by destruct (lock σ io2) as [[b k]|].
  - intros a b h k H1 H2. unfold ltb. rewrite H1, H2.
    apply bool_decide_eq_true.
Qed.

End handle.

(** C1 (as stated) fails: [is_io_started] on a default constructed handle
    throws, as [basic_io_interface_test_default_constructed] requires. *)
Lemma invalid_handle_accessors_counterexample :
  ¬ (∀ e, basic_io_interface.is_io_started (∅ : store io_handler_mock.t)
            basic_io_interface.default ≠ Threw e).
Proof. intros Hclaim. by apply (Hclaim invalid_handle). Qed.

Lemma invalid_handle_accessors_throw_witness :
  basic_io_interface.is_io_started (∅ : store io_handler_mock.t)
      basic_io_interface.default = Threw invalid_handle
  ∧ basic_io_interface.get_socket (∅ : store io_handler_mock.t)
      basic_io_interface.default = Threw invalid_handle
  ∧ basic_io_interface.get_output_queue_stats (∅ : store io_handler_mock.t)
      basic_io_interface.default = Threw invalid_handle.
Proof.
  apply (invalid_handle_accessors_throw (∅ : store io_handler_mock.t)
           basic_io_interface.default).
  reflexivity.
Defined.

(** The handle of a handler that has been destroyed, on a store that holds
    another handler: every operation returns false and changes nothing. *)
Lemma invalid_handle_operations_return_false_witness :
  let σ : store io_handler_mock.t := {[ 1%N := io_handler_mock.init ]} in
  let io := basic_io_interface.of_shared 2 in
  basic_io_interface.send [] io σ = (false, σ)
  ∧ basic_io_interface.start_io sio_send io σ = (false, σ)
  ∧ basic_io_interface.stop_io io σ = (false, σ).
Proof.
  intros σ io.
  pose proof (invalid_handle_operations_return_false σ io) as H.
  destruct (H eq_refl [] 0 default_endpoint sio_send)
    as (_ & Hsend & _ & _ & _ & _ & Hstart & Hstop).
  exact (conj Hsend (conj Hstart Hstop)).
Defined.

(** Three default constructed handles and two handles of live handlers, as
    in [basic_io_interface_test_compare]. *)
Lemma handle_equality_and_order_witness :
  let σ : store io_handler_mock.t :=
    {[ 1%N := io_handler_mock.init; 2%N := io_handler_mock.init ]} in
  let io_intf1 := basic_io_interface.default in
  let io_intf2 := basic_io_interface.of_shared 1 in
  let io_intf4 := basic_io_interface.of_shared 2 in
  basic_io_interface.ltb σ io_intf1 io_intf2 = true
  ∧ basic_io_interface.ltb σ io_intf2 io_intf1 = false
  ∧ basic_io_interface.eqb σ io_intf2 io_intf4 = false.
Proof.
  intros σ io_intf1 io_intf2 io_intf4.
  destruct (handle_equality_and_order σ io_intf1 io_intf2 io_intf4)
    as (_ & _ & _ & _ & _ & Hinv & _).
  destruct (Hinv eq_refl eq_refl) as [H12 H21].
  split; [exact H12|]. split; [exact H21|]. reflexivity.
Defined.

(** ** [msg_hdlr] *)

Section msg_hdlr_facts.
Import Int Msg.
Context {IOT : Type} `{!IOHandler IOT}.
Implicit Types (mh : msg_hdlr.t) (io : basic_io_interface.t)
  (σ : store IOT) (buf body : shared_buffer).

(** What a call returns and what it does to the counter depend on the
    total size of the message alone. *)
Lemma msg_hdlr_call_size mh buf io (endp : endpoint_type) cnt σ :
  (msg_hdlr.call mh buf io endp cnt σ).1 = (2 <? size buf)
  ∧ (msg_hdlr.call mh buf io endp cnt σ).2.1 =
      (if 2 <? size buf then to_size_t (cnt + 1) else cnt).
Proof. unfold msg_hdlr.call. by destruct (2 <? size buf). Qed.

Lemma to_size_t_succ cnt :
  0 ≤ cnt < size_t_modulus - 1 → to_size_t (cnt + 1) = cnt + 1.
Proof. intros Hc. unfold to_size_t. apply Z.mod_small. lia. Qed.

(** C6 (as amended): for a message built by [make_variable_len_msg] or by
    [make_cr_lf_text_msg] the handler returns false iff the body is empty;
    for a message built by [make_lf_text_msg] it returns false iff the
    body has at most one byte.  Whenever it returns true it increments the
    counter by exactly one, and whenever it returns false it leaves the
    counter as it was. *)
Theorem msg_hdlr_end_of_flow mh body io (endp : endpoint_type) cnt σ e :
  0 ≤ cnt < size_t_modulus - 1 →
  let returned msg := (msg_hdlr.call mh msg io endp cnt σ).1 in
  let counter msg := (msg_hdlr.call mh msg io endp cnt σ).2.1 in
  (∀ msg, make_variable_len_msg e body = Some msg →
     (returned msg = false ↔ body = []))
  ∧ (returned (make_cr_lf_text_msg body) = false ↔ body = [])
  ∧ (returned (make_lf_text_msg body) = false ↔ size body ≤ 1)
  ∧ (∀ msg, returned msg = true → counter msg = cnt + 1)
  ∧ (∀ msg, returned msg = false → counter msg = cnt).
Proof.
  intros Hcnt returned counter.
  assert (∀ msg, returned msg = false ↔ size msg ≤ 2) as Hret.
  { intros msg. unfold returned.
    destruct (msg_hdlr_call_size mh msg io endp cnt σ) as [-> _].
    destruct (Z.ltb_spec 2 (size msg)); split; (done || lia). }
  assert (∀ b : shared_buffer, size b ≤ 0 ↔ b = []) as Hempty.
  { intros b. unfold size. destruct b; simpl; split; (done || lia). }
  split; [|split; [|split; [|split]]].
  - intros msg (_ & Hsz & _)%make_variable_len_msg_Some.
    rewrite Hret, Hsz, <- Hempty. lia.
  - rewrite Hret, size_make_cr_lf_text_msg, <- Hempty. lia.
  - rewrite Hret, size_make_lf_text_msg. lia.
  - intros msg. unfold returned, counter.
    destruct (msg_hdlr_call_size mh msg io endp cnt σ) as [-> ->].
    intros ->. by apply to_size_t_succ.
  - intros msg. unfold returned, counter.
    destruct (msg_hdlr_call_size mh msg io endp cnt σ) as [-> ->].
    by intros ->.
Qed.

(** C10: the handler decides by the total size of the message.  For every
    message of at most 2 bytes, header or delimiter included, it returns
    false and does not touch the counter; so a body of one character
    followed by the LF delimiter, 2 bytes in all, is taken for the end of
    the flow although the body is not empty. *)
Theorem msg_hdlr_shutdown_by_total_size mh io (endp : endpoint_type) cnt σ :
  (∀ buf, size buf ≤ 2 →
     (msg_hdlr.call mh buf io endp cnt σ).1 = false
     ∧ (msg_hdlr.call mh buf io endp cnt σ).2.1 = cnt)
  ∧ (∀ c : byte,
       let body := [c] in
       let msg := make_lf_text_msg body in
       body ≠ [] ∧ size msg = 2
       ∧ (msg_hdlr.call mh msg io endp cnt σ).1 = false
       ∧ (msg_hdlr.call mh msg io endp cnt σ).2.1 = cnt).
Proof.
  assert (∀ buf, size buf ≤ 2 →
     (msg_hdlr.call mh buf io endp cnt σ).1 = false
     ∧ (msg_hdlr.call mh buf io endp cnt σ).2.1 = cnt) as Hsmall.
  { intros buf Hsz.
    destruct (msg_hdlr_call_size mh buf io endp cnt σ) as [-> ->].
    destruct (Z.ltb_spec 2 (size buf)); [lia|done]. }
  split; [exact Hsmall|].
  intros c body msg. split; [done|]. split; [done|].
  by apply Hsmall.
Qed.

End msg_hdlr_facts.

(** C6 (as stated) fails: the LF framed message of the one character body
    "a" has a body that is not empty, yet the handler returns false and
    does not count it. *)
Lemma msg_hdlr_end_of_flow_counterexample :
  let body := list_byte_of_string "a" in
  let msg := Msg.make_lf_text_msg body in
  let σ : store io_handler_mock.t := ∅ in
  let r := msg_hdlr.call (msg_hdlr.mk false) msg basic_io_interface.default
             default_endpoint 0 σ in
  ¬ (body ≠ [] → r.1 = true ∧ r.2.1 = 1).
Proof.
  intros body msg σ r Hclaim.
  destruct Hclaim as [Hret _]; [done|].
  vm_compute in Hret. discriminate Hret.
Qed.

(** A variable length message with a body, as in the test of the message
    handler, and the CR LF message of the same body. *)
Lemma msg_hdlr_end_of_flow_witness :
  let body := Msg.make_body_buf "Bah, humbug!" "T" 4 in
  let σ : store io_handler_mock.t := ∅ in
  let returned msg :=
    (msg_hdlr.call (msg_hdlr.mk false) msg basic_io_interface.default
       default_endpoint 0 σ).1 in
  (returned ([x00; x10] ++ body) = false ↔ body = [])
  ∧ (returned (Msg.make_cr_lf_text_msg body) = false ↔ body = []).
Proof.
  intros body σ returned.
  assert (0 ≤ 0 < Int.size_t_modulus - 1) as Hcnt
    by (vm_compute; split; [congruence|reflexivity]).
  destruct (@msg_hdlr_end_of_flow io_handler_mock.t
              io_handler_mock_IOHandler (msg_hdlr.mk false) body
              basic_io_interface.default default_endpoint 0 σ Int.little Hcnt)
    as (Hvar & Hcrlf & _).
  split; [|exact Hcrlf].
  apply Hvar. vm_compute. reflexivity.
Defined.

(** The empty LF message and the LF message of the body "a", with a
    handler that replies. *)
Lemma msg_hdlr_shutdown_by_total_size_witness :
  let σ : store io_handler_mock.t := {[ 1%N := io_handler_mock.init ]} in
  let io := basic_io_interface.of_shared 1 in
  let msg := Msg.make_lf_text_msg (list_byte_of_string "a") in
  (msg_hdlr.call (msg_hdlr.mk true) msg io default_endpoint 7 σ).1 = false
  ∧ (msg_hdlr.call (msg_hdlr.mk true) msg io default_endpoint 7 σ).2.1 = 7.
Proof.
  intros σ io msg.
  apply (proj1 (@msg_hdlr_shutdown_by_total_size io_handler_mock.t
                  io_handler_mock_IOHandler (msg_hdlr.mk true) io
                  default_endpoint 7 σ) msg).
  vm_compute. congruence.
Defined.

(** ** [io_handler_mock] *)

Section mock.
Import io_handler_mock.

Lemma start_io_body_spec set_sio_called h :
  (∀ b k, started (set_sio_called b k) = started k) →
  (start_io_body set_sio_called h).1 = true
  ∧ started (start_io_body set_sio_called h).2 = true.
Proof.
  intros Hset. unfold start_io_body. simpl. rewrite Hset.
  split; [done|]. by destruct (started h) eqn:Hs.
Qed.

(** Every overload of [start_io] returns true and leaves the handler
    started, whether or not it was started before. *)
Lemma start_io_spec args h :
  (start_io args h).1 = true ∧ started (start_io args h).2 = true.
Proof. destruct args; by apply start_io_body_spec. Qed.

Lemma stop_io_spec h : stop_io h = (started h, set_started false h).
Proof. unfold stop_io. destruct h as [? []]; done. Qed.

Lemma started_flips_started argss h :
  started h = true → started_flips (call_start_io <$> argss) h = 0%nat.
Proof.
  revert h. induction argss as [|args argss IH]; intros h Hs; [done|].
  simpl. rewrite Hs. simpl. apply IH, start_io_spec.
Qed.

Lemma started_flips_start_io args argss h :
  started_flips (call_start_io <$> args :: argss) h
    = if started h then 0%nat else 1%nat.
Proof.
  simpl. destruct (start_io_spec args h) as [_ Hs]. rewrite Hs.
  rewrite started_flips_started by done.
  by destruct (started h).
Qed.

Lemma started_flips_bound cs h :
  (started_flips cs h ≤ (if started h then 0 else 1) + count_stop_io cs)%nat.
Proof.
  revert h. induction cs as [|c cs IH]; intros h.
  - simpl. destruct (started h); unfold count_stop_io; simpl; lia.
  - simpl. specialize (IH (step c h).2).
    unfold count_stop_io in *. destruct c as [args|]; simpl in *.
    + destruct (start_io_spec args h) as [_ Hs]. rewrite Hs in *.
      destruct (started h); simpl; lia.
    + rewrite stop_io_spec in *. simpl in *.
      destruct (started h); simpl; lia.
Qed.

(** C2 (as amended): on every [io_handler_mock], after any call of
    [start_io] the started flag is true; in a sequence of [start_io] calls
    alone the flag goes from false to true exactly once when the handler
    was not started (at the first call) and never when it was; in a
    sequence with [stop_io] calls it can do so again, at most once more
    for each [stop_io]; [stop_io] returns whether the handler was started
    and leaves it not started. *)
Theorem io_handler_mock_started_flag h args argss cs :
  started (start_io args h).2 = true
  ∧ started_flips (call_start_io <$> args :: argss) h
      = (if started h then 0%nat else 1%nat)
  ∧ (started_flips cs h ≤ (if started h then 0 else 1) + count_stop_io cs)%nat
  ∧ stop_io h = (started h, set_started false h).
Proof.
  split; [apply start_io_spec|].
  split; [apply started_flips_start_io|].
  split; [apply started_flips_bound|apply stop_io_spec].
Qed.

(** C2 (as stated) fails: with a [stop_io] between two [start_io] calls
    the flag goes from false to true twice, and the second [start_io]
    does not return false. *)
Lemma io_handler_mock_started_flag_counterexample :
  let cs := [call_start_io sio_send; call_stop_io; call_start_io sio_send] in
  ¬ (started_flips cs init = 1%nat
     ∧ ∃ stopped, (run cs init).1 = [true; stopped; false]).
Proof.
  intros cs [Hflips _]. vm_compute in Hflips. discriminate Hflips.
Qed.

(** Two calls of [start_io] in a row: the second one returns true as
    well, and sets the flag of its own overload. *)
Example start_io_twice :
  run [call_start_io sio_send; call_start_io (sio_read 0)] init
    = ([true; true],
       mk 3 true false false false true false true false).
Proof. reflexivity. Qed.

End mock.

(** ** [send_to_all] *)

Section send_to_all_facts.
Import Int.
Context {IOH : Type} `{!IOHandler IOH}.
Implicit Types (σ : store IOH) (io : basic_io_interface.t)
  (s : send_to_all.t) (buf : Msg.shared_buffer).

(** The handler a handle refers to, if it is valid. *)
Local Abbreviation target σ io := (fst <$> basic_io_interface.lock σ io).

(** Passing a buffer to the handler at an address. *)
Local Abbreviation deliver buf := (λ σ a, alter (ioh_send buf) a σ).

(** Which handler a handle refers to depends on the addresses in use
    only. *)
Lemma target_dom σ1 σ2 io : dom σ1 = dom σ2 → target σ1 io = target σ2 io.
Proof.
  intros Hdom. unfold basic_io_interface.lock.
  destruct (basic_io_interface.m_ioh_wptr io) as [a|]; simpl; [|done].
  destruct (σ1 !! a) as [h1|] eqn:H1, (σ2 !! a) as [h2|] eqn:H2; simpl; try done.
  - apply not_elem_of_dom in H2. rewrite <- Hdom in H2.
    apply not_elem_of_dom in H2. congruence.
  - apply not_elem_of_dom in H1. rewrite Hdom in H1.
    apply not_elem_of_dom in H1. congruence.
Qed.

Lemma is_valid_target σ io :
  basic_io_interface.is_valid σ io = bool_decide (is_Some (target σ io)).
Proof.
  unfold basic_io_interface.is_valid.
  by destruct (basic_io_interface.lock σ io) as [[a h]|].
Qed.

Lemma is_valid_dom σ1 σ2 io :
  dom σ1 = dom σ2 →
  basic_io_interface.is_valid σ1 io = basic_io_interface.is_valid σ2 io.
Proof. intros Hdom. by rewrite !is_valid_target, (target_dom σ1 σ2). Qed.

(** One [io.send(buf)]: the buffer goes to the handler of a valid handle,
    and nothing happens for an invalid one. *)
Lemma handle_send_spec buf io σ :
  basic_io_interface.send buf io σ =
    (basic_io_interface.is_valid σ io,
     from_option (deliver buf σ) σ (target σ io)).
Proof.
  unfold basic_io_interface.send, basic_io_interface.is_valid.
  destruct (basic_io_interface.lock σ io) as [[a h]|] eqn:Hlock; simpl; [|done].
  f_equal. apply lock_Some in Hlock as [_ Ha].
  apply map_eq. intros i. rewrite lookup_insert, lookup_alter.
  case_decide; subst; by rewrite ?Ha.
Qed.

Lemma deliver_dom buf σ a : dom (deliver buf σ a) = dom σ.
Proof. apply dom_alter_L. Qed.

Lemma handle_send_dom buf io σ : dom (basic_io_interface.send buf io σ).2 = dom σ.
Proof.
  rewrite handle_send_spec. simpl.
  destruct (target σ io); simpl; [apply deliver_dom|done].
Qed.

Lemma foldl_deliver_dom buf (l : list N) σ : dom (foldl (deliver buf) σ l) = dom σ.
Proof.
  revert σ. induction l as [|a l IH]; intros σ; [done|].
  simpl. by rewrite IH, deliver_dom.
Qed.

Lemma foldl_deliver_other buf (l : list N) σ a :
  a ∉ l → foldl (deliver buf) σ l !! a = σ !! a.
Proof.
  revert σ. induction l as [|b l IH]; intros σ Hnotin; [done|].
  apply not_elem_of_cons in Hnotin as [Hne Hnotin].
  simpl. rewrite IH by done. by rewrite lookup_alter_ne.
Qed.

(** The loop of [send]: the buffer is passed to the handlers of the valid
    members, one after the other in the order of the members. *)
Lemma send_loop buf (l : list basic_io_interface.t) σ :
  foldl (λ σ io, (basic_io_interface.send buf io σ).2) σ l
    = foldl (deliver buf) σ (omap (λ io, target σ io) l).
Proof.
  revert σ. induction l as [|io l IH]; intros σ; [done|].
  simpl. rewrite IH.
  assert (omap (λ io', target (basic_io_interface.send buf io σ).2 io') l
          = omap (λ io', target σ io') l) as ->.
  { apply list_omap_ext, Forall_Forall2_diag, Forall_forall.
    intros io' _. apply target_dom, handle_send_dom. }
  rewrite handle_send_spec. simpl.
  by destruct (target σ io).
Qed.

(** The store that the loop leaves does not depend on the calls written
    down, and every turn writes its call after those. *)
Lemma send_turn_fold buf (l : list basic_io_interface.t) calls σ :
  foldl (send_to_all.send_turn buf) (calls, σ) l
    = (calls ++ ((λ io, send_to_all.mk_send_call io buf
                          (basic_io_interface.is_valid σ io)) <$> l),
       foldl (λ σ io, (basic_io_interface.send buf io σ).2) σ l).
Proof.
  revert calls σ. induction l as [|io l IH]; intros calls σ.
  - simpl. by rewrite app_nil_r.
  - simpl. unfold send_to_all.send_turn at 2. simpl.
    rewrite handle_send_spec. rewrite IH. f_equal.
    rewrite <- app_assoc. simpl. do 2 f_equal.
    apply list_fmap_ext. intros _ io' _. f_equal.
    apply is_valid_dom.
    destruct (target σ io); simpl; [apply deliver_dom|done].
Qed.

(** C7: [send(buf)] goes through the members in the order they were
    added and calls [send] on each: the calls it makes are, first call
    first, one call with [buf] on every member, the members taken from the
    first one added to the last one added, and the call returns true on a
    valid member and false on an invalid one.  The buffer reaches the
    handlers of exactly the valid members, in that order, the call on an
    invalid member returns false and does nothing, no other handler is
    touched, and the collection, its size and the validity of its members
    are as before. *)
Theorem send_to_all_send_delivers buf s σ :
  let s' := (send_to_all.send buf s σ).1 in
  let σ' := (send_to_all.send buf s σ).2 in
  send_to_all.send_calls buf s σ
    = (λ io, send_to_all.mk_send_call io buf (basic_io_interface.is_valid σ io))
        <$> send_to_all.m_io_intfs s
  ∧ σ' = foldl (λ σ io, (basic_io_interface.send buf io σ).2) σ
         (send_to_all.m_io_intfs s)
  ∧ σ' = foldl (deliver buf) σ (send_to_all.valid_members σ s)
  ∧ (∀ io σ1, dom σ1 = dom σ →
       basic_io_interface.send buf io σ1 =
         (basic_io_interface.is_valid σ io,
          if basic_io_interface.is_valid σ io
          then from_option (deliver buf σ1) σ1 (target σ io) else σ1))
  ∧ (∀ a, a ∉ send_to_all.valid_members σ s → σ' !! a = σ !! a)
  ∧ (∀ io, send_to_all.m_io_intfs (send_to_all.add_io_interface io s)
             = send_to_all.m_io_intfs s ++ [io])
  ∧ s' = s
  ∧ send_to_all.size s' = send_to_all.size s
  ∧ (∀ io, basic_io_interface.is_valid σ' io = basic_io_interface.is_valid σ io).
Proof.
  intros s' σ'.
  unfold s', σ', send_to_all.send, send_to_all.send_calls,
    send_to_all.send_each, send_to_all.valid_members.
  rewrite send_turn_fold. simpl. rewrite send_loop.
  split; [done|]. split; [done|]. split; [done|]. split.
  { intros io σ1 Hdom. rewrite handle_send_spec.
    rewrite (is_valid_dom σ1 σ), (target_dom σ1 σ) by done.
    rewrite is_valid_target.
    by destruct (target σ io) as [a|]. }
  split; [intros a Ha; by apply foldl_deliver_other|].
  split; [done|]. split; [done|]. split; [done|].
  intros io. apply is_valid_dom, foldl_deliver_dom.
Qed.

(** The loop of [get_total_output_queue_stats] once a call has thrown. *)
Lemma add_stats_threw σ e (l : list basic_io_interface.t) :
  foldl (send_to_all.add_stats σ) (Threw e) l = Threw e.
Proof. induction l as [|io l IH]; [done|]. simpl. apply IH. Qed.

(** With an invalid member in the collection the loop is left by the
    exception of that member, which terminates the program. *)
Lemma get_total_output_queue_stats_invalid s σ :
  (∃ io, io ∈ send_to_all.m_io_intfs s ∧ basic_io_interface.is_valid σ io = false) →
  send_to_all.get_total_output_queue_stats s σ = Terminated.
Proof.
  intros (io & Hin & Hinv). unfold send_to_all.get_total_output_queue_stats.
  generalize (mk_output_queue_stats 0 0).
  induction (send_to_all.m_io_intfs s) as [|io' l IH]; intros tot.
  - by apply elem_of_nil in Hin.
  - simpl. unfold basic_io_interface.get_output_queue_stats.
    destruct (basic_io_interface.lock σ io') as [[a h]|] eqn:Hlock; simpl.
    + apply elem_of_cons in Hin as [->|Hin]; [|by apply IH].
      apply is_valid_false in Hinv. congruence.
    + by rewrite add_stats_threw.
Qed.

(** The sums the loop computes, with the wrap-around of [std::size_t]. *)
Lemma add_stats_valid σ (l : list basic_io_interface.t) tot :
  Forall (λ io, basic_io_interface.is_valid σ io = true) l →
  ∃ qs, mapM (λ io, snd <$> basic_io_interface.lock σ io) l = Some qs
    ∧ foldl (send_to_all.add_stats σ) (Returned tot) l =
        Returned (mk_output_queue_stats
          (foldl (λ n h, to_size_t (n + output_queue_size (ioh_get_output_queue_stats h)))
             (output_queue_size tot) qs)
          (foldl (λ n h, to_size_t (n + bytes_in_output_queue (ioh_get_output_queue_stats h)))
             (bytes_in_output_queue tot) qs)).
Proof.
  revert tot. induction l as [|io l IH]; intros tot Hall.
  - exists []. split; [done|]. by destruct tot.
  - apply Forall_cons in Hall as [Hio Hall].
    unfold basic_io_interface.is_valid in Hio.
    destruct (basic_io_interface.lock σ io) as [[a h]|] eqn:Hlock; [|done].
    simpl. unfold basic_io_interface.get_output_queue_stats.
    rewrite Hlock. simpl.
    edestruct IH as (qs & Hqs & ->); [done|].
    exists (h :: qs). split; [|done].
    by rewrite Hqs.
Qed.

Lemma foldl_to_size_t_sum (f : IOH → Z) (qs : list IOH) n :
  0 ≤ n < size_t_modulus →
  foldl (λ n h, to_size_t (n + f h)) n qs
    = to_size_t (n + foldr Z.add 0 (f <$> qs)).
Proof.
  revert n. induction qs as [|h qs IH]; intros n Hn.
  - simpl. unfold to_size_t. rewrite Z.add_0_r, Z.mod_small; done.
  - rewrite fmap_cons. simpl. rewrite IH by (apply Z.mod_pos_bound; done).
    unfold to_size_t. by rewrite Zplus_mod_idemp_l, Z.add_assoc.
Qed.

(** When every member is valid the total is the sum, over the members, of
    what their handlers report, as a [std::size_t]. *)
Lemma get_total_output_queue_stats_all_valid s σ :
  Forall (λ io, basic_io_interface.is_valid σ io = true) (send_to_all.m_io_intfs s) →
  ∃ qs, mapM (λ io, snd <$> basic_io_interface.lock σ io) (send_to_all.m_io_intfs s)
          = Some qs
    ∧ send_to_all.get_total_output_queue_stats s σ =
        Returned (mk_output_queue_stats
          (to_size_t (foldr Z.add 0
             ((λ h, output_queue_size (ioh_get_output_queue_stats h)) <$> qs)))
          (to_size_t (foldr Z.add 0
             ((λ h, bytes_in_output_queue (ioh_get_output_queue_stats h)) <$> qs)))).
Proof.
  intros Hall. unfold send_to_all.get_total_output_queue_stats.
  destruct (add_stats_valid σ _ (mk_output_queue_stats 0 0) Hall)
    as (qs & Hqs & ->).
  exists qs. split; [done|]. simpl.
  by rewrite !foldl_to_size_t_sum.
Qed.

End send_to_all_facts.

(** C8 fails on the code: a collection that holds a valid member and a
    default constructed one.  The call of [get_output_queue_stats] on the
    invalid member throws inside the [noexcept] function, so no total is
    returned; the sum over the valid members would be 42 and 43. *)
Theorem get_total_output_queue_stats_invalid_member :
  let σ : store io_handler_mock.t := {[ 1%N := io_handler_mock.init ]} in
  let s := send_to_all.add_io_interface basic_io_interface.default
             (send_to_all.add_io_interface (basic_io_interface.of_shared 1)
                send_to_all.empty) in
  send_to_all.size s = 2
  ∧ send_to_all.valid_members σ s = [1%N]
  ∧ send_to_all.get_total_output_queue_stats s σ = Terminated
  ∧ send_to_all.get_total_output_queue_stats s σ
      ≠ Returned (mk_output_queue_stats 42 43).
Proof. intros σ s. repeat split; try done. Qed.

(** Scenario D: three valid and two invalid handles in the collection. *)
Example send_to_all_scenario_d :
  let σ : store io_handler_mock.t :=
    {[ 1%N := io_handler_mock.init; 2%N := io_handler_mock.init;
       3%N := io_handler_mock.init ]} in
  let s := send_to_all.mk
    [ basic_io_interface.of_shared 1; basic_io_interface.default;
      basic_io_interface.of_shared 2; basic_io_interface.of_shared 9;
      basic_io_interface.of_shared 3 ] in
  let sent := io_handler_mock.set_send_called true io_handler_mock.init in
  send_to_all.send [x01] s σ = (s, {[ 1%N := sent; 2%N := sent; 3%N := sent ]})
  ∧ send_to_all.valid_members σ s = [1%N; 2%N; 3%N]
  ∧ send_to_all.size s = 5.
Proof.
  intros σ s sent. split; [|done]. reflexivity.
Qed.

(** The calls of scenario D, in the order of the members: true is
    returned for the three valid handles and false for the other two. *)
Example send_to_all_scenario_d_calls :
  let σ : store io_handler_mock.t :=
    {[ 1%N := io_handler_mock.init; 2%N := io_handler_mock.init;
       3%N := io_handler_mock.init ]} in
  let s := send_to_all.mk
    [ basic_io_interface.of_shared 1; basic_io_interface.default;
      basic_io_interface.of_shared 2; basic_io_interface.of_shared 9;
      basic_io_interface.of_shared 3 ] in
  send_to_all.send_calls [x01] s σ =
    [ send_to_all.mk_send_call (basic_io_interface.of_shared 1) [x01] true;
      send_to_all.mk_send_call basic_io_interface.default [x01] false;
      send_to_all.mk_send_call (basic_io_interface.of_shared 2) [x01] true;
      send_to_all.mk_send_call (basic_io_interface.of_shared 9) [x01] false;
      send_to_all.mk_send_call (basic_io_interface.of_shared 3) [x01] true ].
Proof. reflexivity. Qed.

(** ** More on the message builders and the header decoder *)

Section framing_extras.
Import Int Msg.

Lemma byte_of_Z_of_byte b : byte_of_Z (Z_of_byte b) = b.
Proof.
  pose proof (Z_of_byte_range b) as Hb. unfold byte_of_Z.
  rewrite Z.mod_small by done. unfold Z_of_byte.
  by rewrite N2Z.id, Byte.of_to_N.
Qed.

Lemma high_byte_div x : 0 ≤ x < 2 ^ 16 → Z.land (Z.shiftr x 8) 255 = x / 256.
Proof.
  intros Hx. change 255 with (Z.ones 8).
  rewrite Z.land_ones, Z.shiftr_div_pow2 by lia.
  change (2 ^ 8) with 256. apply Z.mod_small.
  split; [apply Z.div_pos; lia|apply Z.div_lt_upper_bound; lia].
Qed.

Lemma low_byte_mod x : Z.land x 255 = x mod 256.
Proof. change 255 with (Z.ones 8). by rewrite Z.land_ones by lia. Qed.

(** The value of two bytes read as a big endian number. *)
Lemma big_to_native_bytes e b0 b1 :
  big_to_native e (object_value e b0 b1) = 256 * Z_of_byte b0 + Z_of_byte b1.
Proof.
  pose proof (Z_of_byte_range b0) as H0. pose proof (Z_of_byte_range b1) as H1.
  set (x := 256 * Z_of_byte b0 + Z_of_byte b1).
  assert (0 ≤ x < 2 ^ 16) as Hx by (unfold x; lia).
  assert (x / 256 = Z_of_byte b0) as Hdiv.
  { unfold x. rewrite Z.mul_comm, Z.div_add_l by lia.
    rewrite (Z.div_small (Z_of_byte b1)) by done. lia. }
  assert (x mod 256 = Z_of_byte b1) as Hmod.
  { unfold x. rewrite Z.add_comm, Z.mul_comm, Z.mod_add by lia.
    by apply Z.mod_small. }
  rewrite <- (byte_of_Z_of_byte b0), <- (byte_of_Z_of_byte b1).
  rewrite <- Hdiv at 1. rewrite <- Hmod at 1.
  rewrite <- high_byte_div, <- low_byte_mod by done.
  by apply big_to_native_object_value.
Qed.

Lemma make_variable_len_msg_div_mod e body :
  size body < uint16_max →
  make_variable_len_msg e body =
    Some ([byte_of_Z (size body / 256); byte_of_Z (size body mod 256)] ++ body).
Proof.
  intros Hlt. pose proof (size_nonneg body) as H0.
  unfold uint16_max in Hlt. unfold make_variable_len_msg.
  destruct (Z.ltb_spec (size body) uint16_max) as [_|Hge];
    [|unfold uint16_max in Hge; lia].
  rewrite object_bytes_native_to_big. unfold to_uint16.
  rewrite Z.mod_small by lia.
  by rewrite high_byte_div, low_byte_mod by lia.
Qed.

Lemma decode_two_bytes e b0 b1 :
  decode_variable_len_msg_hdr e [b0; b1] = Some (256 * Z_of_byte b0 + Z_of_byte b1).
Proof.
  pose proof (Z_of_byte_range b0) as H0. pose proof (Z_of_byte_range b1) as H1.
  simpl. rewrite big_to_native_bytes.
  unfold to_size_t, size_t_modulus, size_t_width.
  rewrite Z.mod_small; [done|]. split; [lia|].
  apply Z.lt_trans with (2 ^ 16); [lia|]. by apply Z.pow_lt_mono_r.
Qed.

(** X1: the header that [make_variable_len_msg] writes is the length of
    the body as a big endian number, the byte [len / 256] followed by the
    byte [len mod 256], on little endian and on big endian machines
    alike; the body follows it. *)
Theorem make_variable_len_msg_big_endian (e : endianness) (body : shared_buffer) :
  size body < uint16_max →
  make_variable_len_msg e body =
    Some ([byte_of_Z (size body / 256); byte_of_Z (size body mod 256)] ++ body)
  ∧ make_variable_len_msg e body = make_variable_len_msg big body.
Proof.
  intros Hlt. by rewrite !make_variable_len_msg_div_mod.
Qed.

Lemma make_variable_len_msg_big_endian_witness :
  let body := make_body_buf "HappyNewYear!" "Q" 500 in
  make_variable_len_msg little body =
    Some ([byte_of_Z (size body / 256); byte_of_Z (size body mod 256)] ++ body)
  ∧ make_variable_len_msg little body = make_variable_len_msg big body.
Proof.
  intros body. apply (make_variable_len_msg_big_endian little body).
  vm_compute. reflexivity.
Defined.

(** X2: [decode_variable_len_msg_hdr] returns a value for a buffer of
    exactly two bytes only (it asserts [sz == 2]); the value is the first
    byte times 256 plus the second byte, whatever the byte order of the
    machine, and so lies below 65536. *)
Theorem decode_variable_len_msg_hdr_value (e : endianness) (buf : shared_buffer) :
  decode_variable_len_msg_hdr e buf =
    match buf with
    | [b0; b1] => Some (256 * Z_of_byte b0 + Z_of_byte b1)
    | _ => None
    end
  ∧ (is_Some (decode_variable_len_msg_hdr e buf) ↔ size buf = 2)
  ∧ (∀ n, decode_variable_len_msg_hdr e buf = Some n → 0 ≤ n < 65536).
Proof.
  destruct buf as [|b0 [|b1 [|b2 buf]]].
  - split; [done|]. split; [|done].
    split; [by intros [? ?]|done].
  - split; [done|]. split; [|done].
    split; [by intros [? ?]|done].
  - rewrite decode_two_bytes. split; [done|]. split.
    + split; [done|by eexists].
    + intros n [= <-].
      pose proof (Z_of_byte_range b0). pose proof (Z_of_byte_range b1). lia.
  - split; [done|]. split; [|done].
    split; [by intros [? ?]|]. unfold size. simpl. lia.
Qed.

(** X3: the header is determined by the length: when two bytes decode to
    the length of a body that the encoder accepts, they are the header the
    encoder writes for that body. *)
Theorem make_variable_len_msg_of_decoded (e : endianness) (b0 b1 : byte)
    (body : shared_buffer) :
  decode_variable_len_msg_hdr e [b0; b1] = Some (size body) →
  size body < uint16_max →
  make_variable_len_msg e body = Some ([b0; b1] ++ body).
Proof.
  rewrite decode_two_bytes. intros [= Hsz] Hlt.
  rewrite make_variable_len_msg_div_mod by done.
  pose proof (Z_of_byte_range b0) as H0. pose proof (Z_of_byte_range b1) as H1.
  rewrite <- Hsz.
  replace ((256 * Z_of_byte b0 + Z_of_byte b1) / 256) with (Z_of_byte b0).
  - replace ((256 * Z_of_byte b0 + Z_of_byte b1) mod 256) with (Z_of_byte b1).
    + by rewrite !byte_of_Z_of_byte.
    + rewrite Z.add_comm, Z.mul_comm, Z.mod_add by lia.
      symmetry. by apply Z.mod_small.
  - rewrite Z.mul_comm, Z.div_add_l by lia.
    rewrite (Z.div_small (Z_of_byte b1)) by done. lia.
Qed.

Lemma make_variable_len_msg_of_decoded_witness :
  make_variable_len_msg little (make_body_buf "HappyNewYear!" "Q" 500)
    = Some ([x02; x01] ++ make_body_buf "HappyNewYear!" "Q" 500).
Proof.
  apply (make_variable_len_msg_of_decoded little x02 x01
           (make_body_buf "HappyNewYear!" "Q" 500));
    vm_compute; reflexivity.
Defined.

(** X4: a message can be cut out of a stream.  When the bytes of an
    encoded message are followed by any other bytes, decoding the first
    two bytes gives a length, that many bytes after the header are the
    body, and what comes after them is the rest of the stream. *)
Theorem variable_len_msg_stream_split (e : endianness)
    (body msg rest : shared_buffer) :
  make_variable_len_msg e body = Some msg →
  ∃ n, decode_variable_len_msg_hdr e (take 2 (msg ++ rest)) = Some n
     ∧ take (Z.to_nat n) (drop 2 (msg ++ rest)) = body
     ∧ drop (2 + Z.to_nat n) (msg ++ rest) = rest.
Proof.
  intros Hmake.
  destruct (make_variable_len_msg_Some _ _ _ Hmake) as (Hlt & _ & _).
  rewrite make_variable_len_msg_div_mod in Hmake by done.
  injection Hmake as <-.
  exists (size body). cbn [app firstn skipn Nat.add]. split; [|split].
  - pose proof (size_nonneg body) as H0. unfold uint16_max in Hlt.
    rewrite decode_two_bytes. f_equal.
    rewrite !Z_of_byte_of_Z.
    + symmetry. apply Z.div_mod. lia.
    + apply Z.mod_pos_bound. lia.
    + split; [apply Z.div_pos; lia|apply Z.div_lt_upper_bound; lia].
  - unfold size. rewrite Nat2Z.id, drop_0. by rewrite take_app_length.
  - unfold size. rewrite Nat2Z.id. by rewrite drop_app_length.
Qed.

Lemma variable_len_msg_stream_split_witness :
  ∃ n, decode_variable_len_msg_hdr little
         (take 2 (([x00; x02] ++ [x41; x42]) ++ [x00; x00])) = Some n
     ∧ take (Z.to_nat n) (drop 2 (([x00; x02] ++ [x41; x42]) ++ [x00; x00]))
         = [x41; x42]
     ∧ drop (2 + Z.to_nat n) (([x00; x02] ++ [x41; x42]) ++ [x00; x00])
         = [x00; x00].
Proof.
  apply (variable_len_msg_stream_split little [x41; x42]
           ([x00; x02] ++ [x41; x42]) [x00; x00]).
  vm_compute. reflexivity.
Defined.

(** X5: a text message is the body followed by its delimiter and nothing
    else: cutting the last two bytes off a CR LF message, or the last
    byte off an LF message, gives the body back, and the bytes cut off
    are 0x0D 0x0A, or 0x0A. *)
Theorem text_msg_body_recovered (body : shared_buffer) :
  (let msg := make_cr_lf_text_msg body in
   take (length msg - 2) msg = body ∧ drop (length msg - 2) msg = [x0d; x0a])
  ∧ (let msg := make_lf_text_msg body in
     take (length msg - 1) msg = body ∧ drop (length msg - 1) msg = [x0a]).
Proof.
  unfold make_cr_lf_text_msg, make_lf_text_msg. simpl.
  rewrite !length_app. simpl.
  replace (length body + 2 - 2)%nat with (length body) by lia.
  replace (length body + 1 - 1)%nat with (length body) by lia.
  rewrite !take_app_length, !drop_app_length. done.
Qed.

(** X6: the builder and the frame function of
    [shared_utility_test.cpp] agree with [make_variable_len_msg] and
    [decode_variable_len_msg_hdr] wherever those return; the builder
    without assertion puts the length modulo 65536 into the header, so
    the frame function reports a body of 65536 + k bytes as k bytes. *)
Theorem shared_utility_test_cpp_agrees (e : endianness) (body buf : shared_buffer) :
  (∀ msg, make_variable_len_msg e body = Some msg →
     shared_utility_test_cpp.make_variable_len_msg e body = msg)
  ∧ (∀ n, decode_variable_len_msg_hdr e buf = Some n →
       shared_utility_test_cpp.variable_len_msg_frame e buf = Some n)
  ∧ shared_utility_test_cpp.variable_len_msg_frame e
      (shared_utility_test_cpp.make_variable_len_msg e body)
    = Some (size body mod 65536).
Proof.
  split; [|split].
  - unfold make_variable_len_msg.
    destruct (size body <? uint16_max); [|done]. by intros msg [= <-].
  - intros n. by destruct buf as [|b0 [|b1 [|b2 buf]]].
  - apply variable_len_msg_frame_make.
Qed.

End framing_extras.

(** ** [make_body_buf] and [make_msg_vec] *)

Section msg_vec_facts.
Import Int Msg.

Lemma length_list_byte_of_string (s : string) :
  length (list_byte_of_string s) = String.length s.
Proof.
  unfold list_byte_of_string. rewrite length_map.
  induction s as [|a s IH]; simpl; [done|by rewrite IH].
Qed.

Lemma size_make_body_buf pre body_char n :
  size (make_body_buf pre body_char n) = Z.of_nat (String.length pre) + Z.of_nat n.
Proof.
  unfold make_body_buf. rewrite size_app. unfold size.
  by rewrite length_list_byte_of_string, length_replicate.
Qed.

(** A loop that appends the results of a function that may abort. *)
Lemma foldl_append_mapM {B} (g : Z → option B) (l : list Z) (acc : list B) :
  foldl (λ s i, vec ← s; msg ← g i; Some (vec ++ [msg])) (Some acc) l
    = (λ ms, acc ++ ms) <$> mapM g l.
Proof.
  revert acc. induction l as [|i l IH]; intros acc.
  - simpl. by rewrite app_nil_r.
  - simpl. destruct (g i) as [msg|]; simpl.
    + rewrite IH. destruct (mapM g l) as [ms|]; simpl; [|done].
      by rewrite <- app_assoc.
    + clear IH. induction l as [|j l IHl]; [done|]. simpl. apply IHl.
Qed.

Lemma mapM_fmap_Forall {A B C} (g : B → option C) (g' : A → option C)
    (h : A → B) (l : list A) :
  Forall (λ k, g (h k) = g' k) l → mapM g (h <$> l) = mapM g' l.
Proof.
  induction 1 as [|k l Hk _ IH]; [done|].
  csimpl. rewrite Hk. destruct (g' k); [|done].
  simpl. f_equal. exact IH.
Qed.

Section with_repeat.
Variable repeat : ∀ S : Type, Z → (Z → S → S) → S → S.
Hypothesis repeat_spec :
  ∀ (S : Type) n (f : Z → S → S) s, repeat S n f s = msg_vec.repeat_loop S n f s.

(** The vector holds what [func] makes of the bodies with 1, 2, ...
    repeated characters, in this order. *)
Lemma make_msg_vec_mapM func pre body_char num_msgs :
  num_msgs ≤ msg_vec.int_max →
  msg_vec.make_msg_vec repeat func pre body_char num_msgs
    = mapM (λ k, func (make_body_buf pre body_char (S k)))
        (seq 0 (Z.to_nat num_msgs)).
Proof.
  intros Hmax. unfold msg_vec.make_msg_vec.
  rewrite repeat_spec. unfold msg_vec.repeat_loop.
  rewrite (foldl_append_mapM
    (λ i, func (make_body_buf pre body_char (Z.to_nat (to_size_t (i + 1)))))).
  simpl. unfold seqZ.
  rewrite (mapM_fmap_Forall _ (λ k, func (make_body_buf pre body_char (S k)))).
  - by destruct (mapM _ _).
  - apply Forall_forall. intros k Hk%elem_of_seq. simpl. do 2 f_equal.
    unfold to_size_t, size_t_modulus, size_t_width, msg_vec.int_max in *.
    rewrite Z.mod_small; [lia|].
    assert (2147483647 < 2 ^ 64) by done. lia.
Qed.

Lemma make_msg_vec_total (build : shared_buffer → shared_buffer)
    pre body_char num_msgs :
  num_msgs ≤ msg_vec.int_max →
  msg_vec.make_msg_vec repeat (λ b, Some (build b)) pre body_char num_msgs
    = Some ((λ k, build (make_body_buf pre body_char (S k)))
              <$> seq 0 (Z.to_nat num_msgs)).
Proof.
  intros Hmax. rewrite make_msg_vec_mapM by done.
  induction (seq 0 (Z.to_nat num_msgs)) as [|k l IH]; [done|].
  simpl. by rewrite IH.
Qed.

Lemma lookup_fmap_seq {B} (f : nat → B) n k x :
  (f <$> seq 0 n) !! k = Some x → (k < n)%nat ∧ x = f k.
Proof.
  rewrite list_lookup_fmap. intros Hx.
  destruct (seq 0 n !! k) as [j|] eqn:Hj; [|done].
  apply lookup_seq in Hj as [-> Hlt]. simpl in Hx. by injection Hx as <-.
Qed.

(** X7: [make_msg_vec] with a text builder returns [num_msgs] messages
    (none when [num_msgs] is not positive); the message at index [k] is
    the preamble followed by [k + 1] body characters and the delimiter,
    so its size is the size of the preamble plus [k + 1] plus 2 for CR LF
    and plus 1 for LF. *)
Theorem make_msg_vec_text (pre : string) (body_char : ascii) (num_msgs : Z) :
  num_msgs ≤ msg_vec.int_max →
  (∃ vec,
     msg_vec.make_msg_vec repeat (λ b, Some (make_cr_lf_text_msg b))
       pre body_char num_msgs = Some vec
     ∧ length vec = Z.to_nat num_msgs
     ∧ ∀ k msg, vec !! k = Some msg →
         msg = make_cr_lf_text_msg (make_body_buf pre body_char (S k))
         ∧ size msg = Z.of_nat (String.length pre) + Z.of_nat k + 1 + 2)
  ∧ (∃ vec,
       msg_vec.make_msg_vec repeat (λ b, Some (make_lf_text_msg b))
         pre body_char num_msgs = Some vec
       ∧ length vec = Z.to_nat num_msgs
       ∧ ∀ k msg, vec !! k = Some msg →
           msg = make_lf_text_msg (make_body_buf pre body_char (S k))
           ∧ size msg = Z.of_nat (String.length pre) + Z.of_nat k + 1 + 1).
Proof.
  intros Hmax. split.
  - eexists. split; [by apply make_msg_vec_total|].
    split; [by rewrite length_fmap, length_seq|].
    intros k msg [_ ->]%lookup_fmap_seq. split; [done|].
    rewrite size_make_cr_lf_text_msg, size_make_body_buf. lia.
  - eexists. split; [by apply make_msg_vec_total|].
    split; [by rewrite length_fmap, length_seq|].
    intros k msg [_ ->]%lookup_fmap_seq. split; [done|].
    rewrite size_make_lf_text_msg, size_make_body_buf. lia.
Qed.

(** X8: [make_msg_vec] with [make_variable_len_msg] returns its vector of
    [num_msgs] framed messages when the longest body, the preamble plus
    [num_msgs] characters, is below 65535 bytes; when there is a message
    to build and the longest body reaches 65535 bytes, the assertion of
    the builder fails and no vector is returned. *)
Theorem make_msg_vec_variable_len (e : endianness) (pre : string)
    (body_char : ascii) (num_msgs : Z) :
  num_msgs ≤ msg_vec.int_max →
  (Z.of_nat (String.length pre) + num_msgs < uint16_max →
     ∃ vec,
       msg_vec.make_msg_vec repeat (make_variable_len_msg e)
         pre body_char num_msgs = Some vec
       ∧ length vec = Z.to_nat num_msgs
       ∧ ∀ k msg, vec !! k = Some msg →
           make_variable_len_msg e (make_body_buf pre body_char (S k)) = Some msg
           ∧ size msg = Z.of_nat (String.length pre) + Z.of_nat k + 1 + 2)
  ∧ (0 < num_msgs → uint16_max ≤ Z.of_nat (String.length pre) + num_msgs →
       msg_vec.make_msg_vec repeat (make_variable_len_msg e)
         pre body_char num_msgs = None).
Proof.
  intros Hmax. rewrite make_msg_vec_mapM by done. split.
  - intros Hfit.
    assert (Forall (λ k, is_Some (make_variable_len_msg e
              (make_body_buf pre body_char (S k)))) (seq 0 (Z.to_nat num_msgs)))
      as Hall.
    { apply Forall_forall. intros k Hk%elem_of_seq.
      rewrite make_variable_len_msg_div_mod; [by eexists|].
      rewrite size_make_body_buf. lia. }
    apply mapM_is_Some_2 in Hall as [vec Hvec]. exists vec.
    split; [done|]. apply mapM_Some_1 in Hvec.
    split.
    + apply Forall2_length in Hvec. by rewrite <- Hvec, length_seq.
    + intros k msg Hk.
      destruct (Forall2_lookup_r _ _ _ _ _ Hvec Hk) as (j & Hj & Hmsg).
      apply lookup_seq in Hj as [-> Hlt]. simpl in Hmsg. split; [done|].
      apply make_variable_len_msg_Some in Hmsg as (_ & -> & _).
      rewrite size_make_body_buf. lia.
  - intros Hpos Hbig. apply mapM_None_2, Exists_exists.
    exists (Z.to_nat num_msgs - 1)%nat. split.
    + apply elem_of_seq. lia.
    + unfold make_variable_len_msg.
      destruct (Z.ltb_spec (size (make_body_buf pre body_char
                   (S (Z.to_nat num_msgs - 1)))) uint16_max) as [Hlt|_]; [|done].
      rewrite size_make_body_buf in Hlt. lia.
Qed.

(** X9: the message handler counts every message of a vector built with
    [make_variable_len_msg] or with [make_cr_lf_text_msg]: it returns
    true on each.  Of a vector built with [make_lf_text_msg] it counts the
    message at index [k] iff the preamble is not empty or [k] is not 0:
    with an empty preamble the first message is taken for the shutdown
    message. *)
Theorem make_msg_vec_counted {IOT : Type} `{!IOHandler IOT}
    (mh : msg_hdlr.t) (io : basic_io_interface.t) (endp : endpoint_type)
    (cnt : Z) (σ : store IOT) (e : endianness)
    (pre : string) (body_char : ascii) (num_msgs : Z) :
  num_msgs ≤ msg_vec.int_max →
  let returned msg := (msg_hdlr.call mh msg io endp cnt σ).1 in
  (∀ vec k msg,
     msg_vec.make_msg_vec repeat (make_variable_len_msg e)
       pre body_char num_msgs = Some vec →
     vec !! k = Some msg → returned msg = true)
  ∧ (∀ vec k msg,
       msg_vec.make_msg_vec repeat (λ b, Some (make_cr_lf_text_msg b))
         pre body_char num_msgs = Some vec →
       vec !! k = Some msg → returned msg = true)
  ∧ (∀ vec k msg,
       msg_vec.make_msg_vec repeat (λ b, Some (make_lf_text_msg b))
         pre body_char num_msgs = Some vec →
       vec !! k = Some msg →
       (returned msg = true ↔ pre ≠ EmptyString ∨ k ≠ 0%nat)).
Proof.
  intros Hmax returned.
  assert (∀ msg, returned msg = (2 <? size msg)) as Hret.
  { intros msg. unfold returned.
    by destruct (msg_hdlr_call_size mh msg io endp cnt σ) as [-> _]. }
  split; [|split].
  - intros vec k msg. rewrite make_msg_vec_mapM by done.
    intros Hvec%mapM_Some_1 Hk.
    destruct (Forall2_lookup_r _ _ _ _ _ Hvec Hk) as (j & Hj & Hmsg).
    apply make_variable_len_msg_Some in Hmsg as (_ & Hsz & _).
    rewrite Hret, Hsz, size_make_body_buf. apply Z.ltb_lt. lia.
  - intros vec k msg. rewrite make_msg_vec_total by done.
    intros [= <-] [_ ->]%lookup_fmap_seq.
    rewrite Hret, size_make_cr_lf_text_msg, size_make_body_buf.
    apply Z.ltb_lt. lia.
  - intros vec k msg. rewrite make_msg_vec_total by done.
    intros [= <-] [_ ->]%lookup_fmap_seq.
    rewrite Hret, size_make_lf_text_msg, size_make_body_buf, Z.ltb_lt.
    destruct pre as [|a pre]; simpl.
    + split; [intros ?; right; lia|intros [?|?]; [done|lia]].
    + split; [by left|lia].
Qed.

End with_repeat.

End msg_vec_facts.

(** The vector of the test of the builders: 20 messages of the preamble
    "Good tea!", the message at index [k] being [k + 10] bytes and the
    delimiter. *)
Lemma make_msg_vec_text_witness :
  (∃ vec,
     msg_vec.make_msg_vec msg_vec.repeat_loop
       (λ b, Some (Msg.make_cr_lf_text_msg b)) "Good tea!" "Z" 20 = Some vec
     ∧ length vec = Z.to_nat 20
     ∧ ∀ k msg, vec !! k = Some msg →
         msg = Msg.make_cr_lf_text_msg (Msg.make_body_buf "Good tea!" "Z" (S k))
         ∧ Msg.size msg = Z.of_nat (String.length "Good tea!") + Z.of_nat k + 1 + 2)
  ∧ (∃ vec,
       msg_vec.make_msg_vec msg_vec.repeat_loop
         (λ b, Some (Msg.make_lf_text_msg b)) "Good tea!" "Z" 20 = Some vec
       ∧ length vec = Z.to_nat 20
       ∧ ∀ k msg, vec !! k = Some msg →
           msg = Msg.make_lf_text_msg (Msg.make_body_buf "Good tea!" "Z" (S k))
           ∧ Msg.size msg = Z.of_nat (String.length "Good tea!") + Z.of_nat k + 1 + 1).
Proof.
  apply (make_msg_vec_text msg_vec.repeat_loop (λ _ _ _ _, eq_refl)
           "Good tea!" "Z" 20).
  vm_compute. congruence.
Defined.

(** A vector that is built, and one whose last body has 65535 bytes. *)
Lemma make_msg_vec_variable_len_witness :
  (∃ vec,
     msg_vec.make_msg_vec msg_vec.repeat_loop
       (Msg.make_variable_len_msg Int.little) "Good tea!" "Z" 20 = Some vec
     ∧ length vec = Z.to_nat 20
     ∧ ∀ k msg, vec !! k = Some msg →
         Msg.make_variable_len_msg Int.little
           (Msg.make_body_buf "Good tea!" "Z" (S k)) = Some msg
         ∧ Msg.size msg = Z.of_nat (String.length "Good tea!") + Z.of_nat k + 1 + 2)
  ∧ msg_vec.make_msg_vec msg_vec.repeat_loop
      (Msg.make_variable_len_msg Int.little) "" "Z" 65535 = None.
Proof.
  assert (20 ≤ msg_vec.int_max) as Hmax1 by (vm_compute; congruence).
  assert (65535 ≤ msg_vec.int_max) as Hmax2 by (vm_compute; congruence).
  split.
  - apply (proj1 (make_msg_vec_variable_len msg_vec.repeat_loop
                    (λ _ _ _ _, eq_refl) Int.little "Good tea!" "Z" 20 Hmax1)).
    vm_compute. reflexivity.
  - apply (proj2 (make_msg_vec_variable_len msg_vec.repeat_loop
                    (λ _ _ _ _, eq_refl) Int.little "" "Z" 65535 Hmax2)).
    + vm_compute. reflexivity.
    + vm_compute. congruence.
Defined.

(** With an empty preamble and the LF delimiter, the first message of the
    vector is not counted and the second one is. *)
Lemma make_msg_vec_counted_witness :
  let σ : store io_handler_mock.t := ∅ in
  let returned msg :=
    (msg_hdlr.call (msg_hdlr.mk false) msg basic_io_interface.default
       default_endpoint 0 σ).1 in
  (returned (Msg.make_lf_text_msg (Msg.make_body_buf "" "Z" 1)) = true
     ↔ EmptyString ≠ EmptyString ∨ 0%nat ≠ 0%nat)
  ∧ (returned (Msg.make_lf_text_msg (Msg.make_body_buf "" "Z" 2)) = true
       ↔ EmptyString ≠ EmptyString ∨ 1%nat ≠ 0%nat).
Proof.
  intros σ returned.
  assert (3 ≤ msg_vec.int_max) as Hmax by (vm_compute; congruence).
  destruct (@make_msg_vec_counted msg_vec.repeat_loop (λ _ _ _ _, eq_refl)
              io_handler_mock.t io_handler_mock_IOHandler (msg_hdlr.mk false)
              basic_io_interface.default default_endpoint 0 σ Int.little
              "" "Z" 3 Hmax) as (_ & _ & Hlf).
  split.
  - apply (Hlf _ 0%nat _ eq_refl). reflexivity.
  - apply (Hlf _ 1%nat _ eq_refl). reflexivity.
Defined.

(** ** The reply of [msg_hdlr] *)

Section msg_hdlr_reply.
Context {IOT : Type} `{!IOHandler IOT}.

(** X10: a handler made with [reply] sends every message it is given
    back through the handle, the shutdown message included: the handler
    behind a valid handle gets [send(buf, endp)] with the very buffer and
    endpoint of the call, and no other handler is touched.  A handler made
    without [reply], or one whose handle is invalid, leaves all handlers
    as they are. *)
Theorem msg_hdlr_reply (mh : msg_hdlr.t) (buf : Msg.shared_buffer)
    (io : basic_io_interface.t) (endp : endpoint_type) (cnt : Z)
    (σ : store IOT) :
  let σ' := (msg_hdlr.call mh buf io endp cnt σ).2.2 in
  (msg_hdlr.reply mh = false → σ' = σ)
  ∧ (basic_io_interface.is_valid σ io = false → σ' = σ)
  ∧ (∀ a h, msg_hdlr.reply mh = true →
       basic_io_interface.lock σ io = Some (a, h) →
       σ' = <[a := ioh_send_to buf endp h]> σ
       ∧ ∀ b, b ≠ a → σ' !! b = σ !! b).
Proof.
  intros σ'. unfold σ', msg_hdlr.call, basic_io_interface.send_to.
  split; [|split].
  - intros ->. by destruct (2 <? Msg.size buf).
  - intros Hinv%is_valid_false. rewrite Hinv.
    by destruct (2 <? Msg.size buf), (msg_hdlr.reply mh).
  - intros a h -> ->.
    assert ((if 2 <? Msg.size buf
             then (true, (Int.to_size_t (cnt + 1), <[a:=ioh_send_to buf endp h]> σ))
             else (false, (cnt, <[a:=ioh_send_to buf endp h]> σ))).2.2
            = <[a:=ioh_send_to buf endp h]> σ) as Heq
      by (by destruct (2 <? Msg.size buf)).
    simpl in *. rewrite Heq. split; [done|].
    intros b Hb. by rewrite lookup_insert_ne.
Qed.

End msg_hdlr_reply.

(** ** [io_handler_mock] under all its operations *)

Section mock_ops.
Import io_handler_mock io_handler_mock_ops.

Lemma apply_sock o h : sock (apply o h) = sock h.
Proof.
  destruct o as [buf|buf endp|args|]; simpl; try done.
  - destruct args; unfold start_io_body; simpl; by destruct (started h).
  - unfold stop_io. by destruct (started h).
Qed.

Lemma apply_send_called o h :
  send_called (apply o h) = send_called h || is_send o.
Proof.
  destruct o as [buf|buf endp|args|]; simpl.
  - by rewrite orb_true_r.
  - by rewrite orb_true_r.
  - rewrite orb_false_r.
    destruct args; unfold start_io_body; simpl; by destruct (started h).
  - rewrite orb_false_r. unfold stop_io. by destruct (started h).
Qed.

Lemma apply_sio_called args o h :
  sio_called args (apply o h) = sio_called args h || is_start_io_of args o.
Proof.
  destruct o as [buf|buf endp|a|]; simpl.
  - by rewrite orb_false_r; destruct args.
  - by rewrite orb_false_r; destruct args.
  - destruct a, args; unfold start_io_body; simpl;
      destruct (started h); simpl;
      by rewrite ?orb_true_r, ?orb_false_r.
  - rewrite orb_false_r. unfold stop_io.
    by destruct args, (started h).
Qed.

(** X11: the mock records which of its member functions have been
    called.  After any sequence of calls, [send_called] is true iff it
    was true before or one of the calls was a [send]; the flag of a
    [start_io] overload is true iff it was true before or that overload
    was among the calls, even if made on a handler that was already
    started; no call clears a flag, and no call changes the socket. *)
Theorem io_handler_mock_records_calls (ops : list op) (h : t)
    (args : start_io_args endpoint) :
  send_called (run_ops ops h) = send_called h || existsb is_send ops
  ∧ sio_called args (run_ops ops h)
      = sio_called args h || existsb (is_start_io_of args) ops
  ∧ sock (run_ops ops h) = sock h.
Proof.
  unfold run_ops. revert h. induction ops as [|o ops IH]; intros h.
  - simpl. by rewrite !orb_false_r.
  - simpl. destruct (IH (apply o h)) as (-> & -> & ->).
    rewrite apply_send_called, apply_sio_called, apply_sock.
    by rewrite !orb_assoc.
Qed.

Lemma run_ops_sends ops h :
  forallb is_send ops = true → started (run_ops ops h) = started h.
Proof.
  unfold run_ops. revert h. induction ops as [|o ops IH]; intros h; [done|].
  simpl. intros [Ho Hops]%andb_true_iff. rewrite IH by done.
  by destruct o.
Qed.

(** X12: whether the mock is started is decided by the last call of
    [start_io] or [stop_io]: after a [start_io], whatever its overload and
    whatever came before, [is_io_started] is true, and after a [stop_io]
    it is false; calls of [send] in between or after do not change it.
    [start_io] returns true on every call, and [stop_io] returns true iff
    the handler was started. *)
Theorem io_handler_mock_is_io_started (before after : list op) (h : t)
    (args : start_io_args endpoint) :
  forallb is_send after = true →
  is_io_started (run_ops (before ++ op_start_io args :: after) h) = true
  ∧ is_io_started (run_ops (before ++ op_stop_io :: after) h) = false
  ∧ (start_io args (run_ops before h)).1 = true
  ∧ (stop_io (run_ops before h)).1 = is_io_started (run_ops before h).
Proof.
  intros Hafter. unfold is_io_started.
  split; [|split; [|split]].
  - unfold run_ops. rewrite foldl_app. simpl.
    fold (run_ops before h).
    fold (run_ops after (start_io args (run_ops before h)).2).
    rewrite run_ops_sends by done. apply start_io_spec.
  - unfold run_ops. rewrite foldl_app. simpl.
    fold (run_ops before h).
    fold (run_ops after (stop_io (run_ops before h)).2).
    rewrite run_ops_sends by done. by rewrite stop_io_spec.
  - apply start_io_spec.
  - by rewrite stop_io_spec.
Qed.

(** X13: for the started flag [io_handler_mock] behaves as the plain
    [io_handler_base_mock] of the handle tests.  Run two sequences of
    calls that have [stop_io] at the same places and [start_io], of any
    overloads, at the others, on two handlers that agree on
    [is_io_started]: they agree on it at the end. *)
Theorem mocks_agree_on_started (cs : list call)
    (ds : list io_handler_base_mock.call) (h : t) (g : io_handler_base_mock.t) :
  Forall2 (λ c d, is_stop_io c = io_handler_base_mock.is_stop_io d) cs ds →
  is_io_started h = io_handler_base_mock.is_io_started g →
  is_io_started (run cs h).2
    = io_handler_base_mock.is_io_started (io_handler_base_mock.run ds g).
Proof.
  intros Hshape. revert h g.
  induction Hshape as [|c d cs ds Hcd _ IH]; intros h g Hhg; [done|].
  simpl. destruct (step c h) as [r h'] eqn:Hstep.
  specialize (IH h' (io_handler_base_mock.step d g)).
  destruct (run cs h') as [rs h''] eqn:Hrun. simpl in *.
  unfold io_handler_base_mock.run in *. apply IH.
  destruct c as [args|], d as [o|]; try done; simpl in *.
  - replace h' with (start_io args h).2 by (by rewrite Hstep).
    apply start_io_spec.
  - rewrite stop_io_spec in Hstep. by injection Hstep as _ <-.
Qed.

End mock_ops.

(** The calls of [basic_io_interface_test_two] on the plain mock, and
    calls of the same kinds on [io_handler_mock]. *)
Lemma mocks_agree_on_started_witness :
  io_handler_mock.is_io_started
    (io_handler_mock.run
       [io_handler_mock.call_start_io (sio_msg_frame 0);
        io_handler_mock.call_start_io sio_send;
        io_handler_mock.call_stop_io] io_handler_mock.init).2
  = io_handler_base_mock.is_io_started
      (io_handler_base_mock.run
         [io_handler_base_mock.call_start_io (io_handler_base_mock.base_msg_frame 0);
          io_handler_base_mock.call_start_io io_handler_base_mock.base_send;
          io_handler_base_mock.call_stop_io] io_handler_base_mock.init).
Proof.
  apply mocks_agree_on_started; [|reflexivity].
  repeat constructor.
Defined.

Lemma io_handler_mock_is_io_started_witness :
  let before := [io_handler_mock_ops.op_start_io sio_send;
                 io_handler_mock_ops.op_stop_io] in
  let after := [io_handler_mock_ops.op_send [x01]] in
  io_handler_mock.is_io_started
    (io_handler_mock_ops.run_ops
       (before ++ io_handler_mock_ops.op_start_io (sio_read 0) :: after)
       io_handler_mock.init) = true
  ∧ io_handler_mock.is_io_started
      (io_handler_mock_ops.run_ops
         (before ++ io_handler_mock_ops.op_stop_io :: after)
         io_handler_mock.init) = false
  ∧ (io_handler_mock.start_io (sio_read 0)
       (io_handler_mock_ops.run_ops before io_handler_mock.init)).1 = true
  ∧ (io_handler_mock.stop_io
       (io_handler_mock_ops.run_ops before io_handler_mock.init)).1
    = io_handler_mock.is_io_started
        (io_handler_mock_ops.run_ops before io_handler_mock.init).
Proof.
  intros before after.
  apply (io_handler_mock_is_io_started before after io_handler_mock.init
           (sio_read 0)).
  reflexivity.
Defined.

(** ** [net_entity_mock] *)

Section entity.
Import net_entity_mock.

Lemma thread_matches_init a : thread_matches (init a).
Proof. done. Qed.

Lemma start_ok s :
  thread_matches s →
  ∃ s1, start s = Ok (negb (started s)) s1
      ∧ started s1 = true ∧ thread_matches s1
      ∧ called s1 = called s ∧ iop s1 = iop s.
Proof.
  unfold thread_matches, start. intros Hthr.
  destruct (started s) eqn:Hs.
  - exists s. by rewrite Hs.
  - simpl. rewrite Hthr. by eexists.
Qed.

Lemma stop_ok s :
  thread_matches s →
  ∃ s2, stop s = Ok (started s) s2
      ∧ started s2 = false ∧ thread_matches s2
      ∧ called s2 = called s ++ (if started s then thread_body s else [])
      ∧ iop s2 = iop s.
Proof.
  unfold thread_matches, stop. intros Hthr.
  destruct (started s) eqn:Hs; simpl.
  - unfold join_thr. simpl. rewrite Hthr. by eexists.
  - exists s. by rewrite ?Hs, app_nil_r.
Qed.

Lemma thread_body_iop s1 s2 : iop s1 = iop s2 → thread_body s1 = thread_body s2.
Proof. unfold thread_body. by intros ->. Qed.

Lemma run_ok cs s :
  thread_matches s →
  ∃ rs s', run cs s = Ok rs s'
    ∧ length rs = length cs
    ∧ thread_matches s' ∧ iop s' = iop s
    ∧ ∃ k, (k ≤ length cs)%nat
         ∧ called s' = called s ++ mjoin (replicate k (thread_body s)).
Proof.
  revert s. induction cs as [|c cs IH]; intros s Hs.
  - exists [], s. split; [done|]. split; [done|]. split; [done|].
    split; [done|]. exists 0%nat. split; [done|]. simpl. by rewrite app_nil_r.
  - assert (∃ r s1 (j : nat), step c s = Ok r s1 ∧ thread_matches s1
              ∧ iop s1 = iop s ∧ (j ≤ 1)%nat
              ∧ called s1 = called s ++ mjoin (replicate j (thread_body s)))
      as (r & s1 & j & Hstep & Hs1 & Hiop & Hj & Hcalled).
    { destruct c; simpl.
      - destruct (start_ok s Hs) as (s1 & H1 & _ & H2 & H3 & H4).
        exists (negb (started s)), s1, 0%nat.
        split; [done|]. split; [done|]. split; [done|]. split; [lia|].
        simpl. by rewrite app_nil_r.
      - destruct (stop_ok s Hs) as (s2 & H1 & _ & H2 & H3 & H4).
        exists (started s), s2, (if started s then 1 else 0)%nat.
        split; [done|]. split; [done|]. split; [done|].
        split; [destruct (started s); lia|].
        rewrite H3. destruct (started s); simpl; by rewrite ?app_nil_r. }
    destruct (IH s1 Hs1) as (rs & s' & Hrun & Hlen & Hs' & Hiop' & k & Hk & Hc).
    exists (r :: rs), s'. simpl. rewrite Hstep, Hrun.
    split; [done|]. split; [by rewrite Hlen|]. split; [done|].
    split; [congruence|].
    exists (j + k)%nat. split; [lia|].
    rewrite Hc, Hcalled, (thread_body_iop s1 s Hiop).
    rewrite <- app_assoc. f_equal.
    rewrite replicate_add. by rewrite join_app.
Qed.

(** X14: as long as an entity is used through [start] and [stop] alone,
    neither of them ever fails: [start] never assigns to a thread object
    that is still joinable and [stop] never joins one that is not.
    [start] returns true iff the entity was not started and leaves it
    started; [stop] returns true iff it was started and leaves it not
    started; the thread of every successful [start] is joined by the next
    successful [stop], after which its three calls have been made in the
    order state change (1, true), error ([message_handler_terminated]),
    state change (0, false). *)
Theorem net_entity_mock_start_stop (cs : list call) (s : t) :
  thread_matches s →
  (∃ s1, start s = Ok (negb (started s)) s1
       ∧ is_started s1 = true ∧ called s1 = called s)
  ∧ (∃ s2, stop s = Ok (started s) s2
         ∧ is_started s2 = false
         ∧ called s2 = called s ++
             (if started s
              then [ io_state_chg (basic_io_interface.of_shared (iop s)) 1 true;
                     err_func (basic_io_interface.of_shared (iop s))
                       message_handler_terminated;
                     io_state_chg (basic_io_interface.of_shared (iop s)) 0 false ]
              else []))
  ∧ (∃ rs s', run cs s = Ok rs s'
       ∧ length rs = length cs
       ∧ thread_matches s'
       ∧ ∃ k, (k ≤ length cs)%nat
            ∧ called s' = called s ++ mjoin (replicate k (thread_body s))).
Proof.
  intros Hs. split; [|split].
  - destruct (start_ok s Hs) as (s1 & H1 & H2 & _ & H3 & _). by exists s1.
  - destruct (stop_ok s Hs) as (s2 & H1 & H2 & _ & H3 & _). by exists s2.
  - destruct (run_ok cs s Hs) as (rs & s' & H1 & H2 & H3 & _ & H4).
    by exists rs, s'.
Qed.

(** X15: [join_thr] is a public member, and calling it between [start]
    and [stop] breaks [stop]: the thread has been joined already, so the
    join inside [stop] throws [std::system_error]; [stop] has cleared the
    started flag before that, and a later [start] succeeds again.  On an
    entity that was never started [join_thr] throws as well. *)
Theorem net_entity_mock_join_thr (s : t) :
  thread_matches s →
  (started s = false → join_thr s = SystemError s)
  ∧ (started s = true →
       ∃ s1 s2 s3,
         join_thr s = Ok () s1
         ∧ called s1 = called s ++ thread_body s
         ∧ stop s1 = SystemError s2
         ∧ is_started s2 = false
         ∧ start s2 = Ok true s3).
Proof.
  unfold thread_matches. intros Hthr. split.
  - intros Hs. rewrite Hs in Hthr. unfold join_thr. by rewrite Hthr.
  - intros Hs. rewrite Hs in Hthr. unfold join_thr. rewrite Hthr.
    eexists _, _, _. split; [done|]. split; [done|].
    unfold stop. simpl. rewrite Hs. simpl. unfold join_thr. simpl.
    split; [done|]. split; [done|]. unfold start. simpl. done.
Qed.

End entity.

(** The calls [start], [start], [stop], [stop] on a new entity. *)
Lemma net_entity_mock_start_stop_witness :
  let s := net_entity_mock.init 1 in
  ∃ rs s', net_entity_mock.run
             [net_entity_mock.call_start; net_entity_mock.call_start;
              net_entity_mock.call_stop; net_entity_mock.call_stop] s
           = net_entity_mock.Ok rs s'
    ∧ length rs = 4%nat
    ∧ net_entity_mock.thread_matches s'
    ∧ ∃ k, (k ≤ 4)%nat
         ∧ net_entity_mock.called s' =
             net_entity_mock.called s
               ++ mjoin (replicate k (net_entity_mock.thread_body s)).
Proof.
  intros s.
  apply (net_entity_mock_start_stop
           [net_entity_mock.call_start; net_entity_mock.call_start;
            net_entity_mock.call_stop; net_entity_mock.call_stop] s).
  reflexivity.
Defined.

(** A new entity, and the entity after [start]. *)
Lemma net_entity_mock_join_thr_witness :
  let s0 := net_entity_mock.mk 1
              (Some (net_entity_mock.thread_body (net_entity_mock.init 1)))
              true [] in
  net_entity_mock.join_thr (net_entity_mock.init 1)
    = net_entity_mock.SystemError (net_entity_mock.init 1)
  ∧ net_entity_mock.start (net_entity_mock.init 1) = net_entity_mock.Ok true s0
  ∧ ∃ s1 s2 s3,
      net_entity_mock.join_thr s0 = net_entity_mock.Ok () s1
      ∧ net_entity_mock.called s1
          = net_entity_mock.called s0 ++ net_entity_mock.thread_body s0
      ∧ net_entity_mock.stop s1 = net_entity_mock.SystemError s2
      ∧ net_entity_mock.is_started s2 = false
      ∧ net_entity_mock.start s2 = net_entity_mock.Ok true s3.
Proof.
  intros s0. split; [|split; [reflexivity|]].
  - apply (net_entity_mock_join_thr (net_entity_mock.init 1)); reflexivity.
  - apply (proj2 (net_entity_mock_join_thr s0 eq_refl) eq_refl).
Defined.

(** ** More on [send_to_all] *)

Section send_to_all_extras.
Import Int.
Context {IOH : Type} `{!IOHandler IOH}.
Implicit Types (σ : store IOH) (io : basic_io_interface.t)
  (s : send_to_all.t) (buf : Msg.shared_buffer).

(** X16: [get_total_output_queue_stats] returns a total iff every member
    of the collection is valid, and the total is then, component by
    component, the sum over the members of what their handlers report,
    modulo 2^64.  With an invalid member, wherever it stands in the
    collection, the program is terminated.  No exception leaves the
    function. *)
Theorem get_total_output_queue_stats_returns s σ :
  ((∃ tot, send_to_all.get_total_output_queue_stats s σ = Returned tot)
     ↔ Forall (λ io, basic_io_interface.is_valid σ io = true)
         (send_to_all.m_io_intfs s))
  ∧ (send_to_all.get_total_output_queue_stats s σ = Terminated
       ↔ Exists (λ io, basic_io_interface.is_valid σ io = false)
           (send_to_all.m_io_intfs s))
  ∧ (∀ e, send_to_all.get_total_output_queue_stats s σ ≠ Threw e)
  ∧ (∀ tot, send_to_all.get_total_output_queue_stats s σ = Returned tot →
       ∃ qs, mapM (λ io, snd <$> basic_io_interface.lock σ io)
               (send_to_all.m_io_intfs s) = Some qs
         ∧ output_queue_size tot =
             (foldr Z.add 0
                ((λ h, output_queue_size (ioh_get_output_queue_stats h)) <$> qs))
             mod 2 ^ 64
         ∧ bytes_in_output_queue tot =
             (foldr Z.add 0
                ((λ h, bytes_in_output_queue (ioh_get_output_queue_stats h)) <$> qs))
             mod 2 ^ 64).
Proof.
  destruct (decide (Forall (λ io, basic_io_interface.is_valid σ io = true)
                      (send_to_all.m_io_intfs s))) as [Hall|Hnot].
  - destruct (get_total_output_queue_stats_all_valid s σ Hall)
      as (qs & Hqs & Htot).
    rewrite Htot. split; [|split; [|split]].
    + split; [done|by eexists].
    + split; [done|]. intros Hex. apply Exists_exists in Hex as (io & Hin & Hio).
      rewrite Forall_forall in Hall. specialize (Hall io Hin). congruence.
    + done.
    + intros tot [= <-]. exists qs. done.
  - assert (Exists (λ io, basic_io_interface.is_valid σ io = false)
              (send_to_all.m_io_intfs s)) as Hex.
    { apply not_Forall_Exists in Hnot; [|apply _].
      eapply Exists_impl; [done|]. simpl. intros io Hio.
      by destruct (basic_io_interface.is_valid σ io). }
    rewrite (get_total_output_queue_stats_invalid s σ)
      by (apply Exists_exists in Hex as (io & ? & ?); by exists io).
    split; [|split; [|split]]; try done.
    split; [by intros [? ?]|done].
Qed.

(** X17: [add_io_interface] puts the handle at the end of the collection
    and never looks at it: the size grows by one also for an invalid
    handle and for a handle that is in the collection already, and a
    [send] after it serves the old members first, as before, and the new
    handle last: the calls it makes are the calls it made before followed
    by one call on the new handle.  So a handle that was added twice gets
    the buffer twice. *)
Theorem add_io_interface_then_send io s buf σ :
  send_to_all.send_calls buf (send_to_all.add_io_interface io s) σ
    = send_to_all.send_calls buf s σ
        ++ [send_to_all.mk_send_call io buf (basic_io_interface.is_valid σ io)]
  ∧ send_to_all.size (send_to_all.add_io_interface io s) = send_to_all.size s + 1
  ∧ send_to_all.valid_members σ (send_to_all.add_io_interface io s)
      = send_to_all.valid_members σ s
          ++ option_list (fst <$> basic_io_interface.lock σ io)
  ∧ (send_to_all.send buf (send_to_all.add_io_interface io s) σ).2
      = (basic_io_interface.send buf io (send_to_all.send buf s σ).2).2
  ∧ (send_to_all.send buf
       (send_to_all.add_io_interface io (send_to_all.add_io_interface io s)) σ).2
      = (basic_io_interface.send buf io
           (basic_io_interface.send buf io (send_to_all.send buf s σ).2).2).2.
Proof.
  unfold send_to_all.size, send_to_all.valid_members, send_to_all.send,
    send_to_all.send_calls, send_to_all.send_each,
    send_to_all.add_io_interface.
  rewrite !send_turn_fold. simpl.
  split; [by rewrite fmap_app|].
  split; [rewrite length_app; simpl; lia|].
  split; [by rewrite omap_app|].
  split; [by rewrite foldl_app|].
  by rewrite !foldl_app.
Qed.

End send_to_all_extras.
